(** * Verification of the moderation bot core: infraction store, dispatcher
    and startup discovery (src/unnamed/part_002, src/src/events/interactionCreate.ts,
    src/src/index.ts). *)

From Stdlib Require Import ZArith Lia Ascii String Sorting.Sorted Sorting.Permutation.
From stdpp Require Import base list gmap strings pretty.

(* ================================================================== *)
(** ** Shared JavaScript runtime notions                               *)
(* ================================================================== *)

(** Errors raised by the runtime and its libraries, as far as the
    modelled code can observe them. *)
Inductive js_error :=
| TypeError (msg : string)
| DatabaseNotOpen             (* better-sqlite3 on a closed connection *)
| ImportFailed (path : string)
| DirectoryMissing (path : string)
| ReplyFailed.                (* the platform refused reply/followUp *)

(** A completion: normal return of a value, or a thrown error. *)
Inductive result (A : Type) :=
| Ok (a : A)
| Throw (e : js_error).
Arguments Ok {A} a.
Arguments Throw {A} e.

(* ================================================================== *)
(** ** Infraction store (src/unnamed/part_002, class DatabaseManager)  *)
(* ================================================================== *)

Module InfractionStore.

Inductive InfractionType := WARN | MUTE | KICK | BAN | TIMEOUT.

#[global] Instance InfractionType_eq_dec : EqDecision InfractionType.
Proof. solve_decision. Defined.

(** A row of table [user_infractions]; [created_at] is the
    CURRENT_TIMESTAMP default, as a number of seconds. *)
Record row := mk_row {
  row_id : string;
  user_id : string;
  guild_id : string;
  moderator_id : string;
  row_type : InfractionType;
  row_reason : string;
  created_at : Z
}.

(** The [Infraction] interface returned to callers. *)
Record Infraction := mk_infraction {
  id : string;
  userId : string;
  guildId : string;
  moderatorId : string;
  type : InfractionType;
  reason : string;
  createdAt : Z
}.

(** The mapping [results.map(row => ({ id: row.id, ... }))]. *)
Definition row_to_infraction (r : row) : Infraction :=
  mk_infraction (row_id r) (user_id r) (guild_id r) (moderator_id r)
    (row_type r) (row_reason r) (created_at r).

(** The connection ([db]) and the table contents in rowid (insertion) order. *)
Record store := mk_store {
  db_open : bool;
  rows : list row
}.

(** [Math.random()] is modelled as a stream of draws: the [n]-th call
    returns [rng n / 2^53]; a double in [0, 1) is such a fraction with
    [0 <= rng n < 2^53]. [Math.floor] of the product is taken exactly. *)
Definition rng := nat -> Z.
Definition random_denominator : Z := (2 ^ 53)%Z.

Definition chars : string := "ABCDEFGHIJKLMNOPQRSTUVWXYZ0123456789".

(** [String.prototype.charAt]: the empty string out of range. *)
Definition charAt (s : string) (i : nat) : string :=
  match String.get i s with
  | Some c => String c EmptyString
  | None => EmptyString
  end.

(** [Math.floor(Math.random() * chars.length)] for the draw [k]. *)
Definition random_index (k : Z) : nat :=
  Z.to_nat ((k * Z.of_nat (String.length chars)) / random_denominator)%Z.

(** The [for (let i = 0; i < 8; i++) result += ...] loop: [k] iterations
    left, next draw [n], accumulated [result]. *)
Fixpoint generate_loop (k : nat) (r : rng) (n : nat) (result : string)
  : string * nat :=
  match k with
  | O => (result, n)
  | S k' => generate_loop k' r (S n)
              (String.append result (charAt chars (random_index (r n))))
  end.

(** [generateInfractionId]: the id and the index of the next draw. *)
Definition generateInfractionId (r : rng) (n : nat) : string * nat :=
  generate_loop 8 r n EmptyString.

(** [isInfractionIdUnique]: [SELECT COUNT( * ) ... WHERE id = ?] is 0. *)
Definition isInfractionIdUnique (rs : list row) (i : string) : bool :=
  Nat.eqb (length (List.filter (fun r => String.eqb (row_id r) i) rs)) 0.

(** [getUniqueInfractionId]: the do-while loop, as a big-step relation
    (it has a derivation exactly when the loop returns). *)
Inductive getUniqueInfractionId (rs : list row) (r : rng)
  : nat -> string -> nat -> Prop :=
| unique_found n i n' :
    generateInfractionId r n = (i, n') ->
    isInfractionIdUnique rs i = true ->
    getUniqueInfractionId rs r n i n'
| unique_retry n i0 n0 i n' :
    generateInfractionId r n = (i0, n0) ->
    isInfractionIdUnique rs i0 = false ->
    getUniqueInfractionId rs r n0 i n' ->
    getUniqueInfractionId rs r n i n'.

(** [addInfraction]: find a free id, then [INSERT] the row; [now] is the
    CURRENT_TIMESTAMP of the insert. On a closed connection the first
    [prepare] (inside [isInfractionIdUnique]) throws after one candidate
    has been drawn. *)
Inductive addInfraction (st : store) (r : rng) (n : nat) (now : Z)
  (uid gid mid : string) (t : InfractionType) (rsn : string)
  : result string -> store -> nat -> Prop :=
| add_ok i n' :
    db_open st = true ->
    getUniqueInfractionId (rows st) r n i n' ->
    addInfraction st r n now uid gid mid t rsn (Ok i)
      (mk_store true (rows st ++ [mk_row i uid gid mid t rsn now])) n'
| add_closed :
    db_open st = false ->
    addInfraction st r n now uid gid mid t rsn (Throw DatabaseNotOpen) st
      (snd (generateInfractionId r n)).

(** [addWarning]: [addInfraction] with type WARN. *)
Definition addWarning (st : store) (r : rng) (n : nat) (now : Z)
  (uid gid mid rsn : string) : result string -> store -> nat -> Prop :=
  addInfraction st r n now uid gid mid WARN rsn.

(** [getInfractionById]: [SELECT * ... WHERE id = ?] with [.get]. *)
Definition getInfractionById (st : store) (i : string)
  : result (option Infraction) :=
  if db_open st then
    Ok (row_to_infraction <$> find (fun r => String.eqb (row_id r) i) (rows st))
  else Throw DatabaseNotOpen.

(** The [WHERE user_id = ? AND guild_id = ?] clause, with [AND type = ?]
    when [if (type)] holds; every [InfractionType] value is a non-empty
    string, so a given type is always truthy. *)
Definition matches_scope (uid gid : string) (t : option InfractionType)
  (r : row) : bool :=
  String.eqb (user_id r) uid && String.eqb (guild_id r) gid &&
  match t with
  | Some t' => bool_decide (row_type r = t')
  | None => true
  end.

(** SQL [ORDER BY created_at DESC]: the output is the input rearranged so
    that [created_at] never increases. Without a further sort key SQL
    leaves the order of rows with equal [created_at] open, so this is a
    relation, not a function. *)
Definition order_by_created_desc (input output : list row) : Prop :=
  Permutation input output /\
  Sorted (fun a b => (created_at b <= created_at a)%Z) output.

(** [getUserInfractions]: every result the query may return. *)
Definition getUserInfractions (st : store) (uid gid : string)
  (t : option InfractionType) (res : result (list Infraction)) : Prop :=
  match res with
  | Ok l =>
      db_open st = true /\
      exists out, order_by_created_desc (List.filter (matches_scope uid gid t) (rows st)) out
                  /\ l = map row_to_infraction out
  | Throw e => db_open st = false /\ e = DatabaseNotOpen
  end.

(** [getInfractionCount]: [SELECT COUNT( * )] with the same WHERE clause. *)
Definition getInfractionCount (st : store) (uid gid : string)
  (t : option InfractionType) : result nat :=
  if db_open st then Ok (length (List.filter (matches_scope uid gid t) (rows st)))
  else Throw DatabaseNotOpen.

(** One admissible evaluation of the ORDER BY: a stable insertion sort
    of the rows in scan order (rowid order), newest first. *)
Fixpoint insert_desc (x : row) (l : list row) : list row :=
  match l with
  | [] => [x]
  | y :: l' => if Z.leb (created_at y) (created_at x) then x :: y :: l'
               else y :: insert_desc x l'
  end.

Definition sort_created_desc (l : list row) : list row :=
  fold_right insert_desc [] l.

Definition getUserInfractions_eval (st : store) (uid gid : string)
  (t : option InfractionType) : result (list Infraction) :=
  if db_open st then
    Ok (map row_to_infraction
          (sort_created_desc (List.filter (matches_scope uid gid t) (rows st))))
  else Throw DatabaseNotOpen.

(** [close]: [this.db.close()]; the file keeps its rows. *)
Definition close (st : store) : store := mk_store false (rows st).

(** The public methods of [DatabaseManager]. *)
Inductive store_op :=
| OpAddInfraction (uid gid mid : string) (t : InfractionType) (rsn : string)
| OpAddWarning (uid gid mid rsn : string)
| OpGetUserInfractions (uid gid : string) (t : option InfractionType)
| OpGetInfractionCount (uid gid : string) (t : option InfractionType)
| OpGetInfractionById (i : string)
| OpClose
| OpBackup (path : string)
| OpGetStats.

(** The effect of one call on the connection, the table and the random
    stream. Reads, [backup] and [getStats] leave both unchanged (whether
    they return or throw); the insert takes any CURRENT_TIMESTAMP. *)
Inductive store_step (r : rng) : store -> nat -> store_op -> store -> nat -> Prop :=
| step_add st n now uid gid mid t rsn res st' n' :
    addInfraction st r n now uid gid mid t rsn res st' n' ->
    store_step r st n (OpAddInfraction uid gid mid t rsn) st' n'
| step_add_warning st n now uid gid mid rsn res st' n' :
    addWarning st r n now uid gid mid rsn res st' n' ->
    store_step r st n (OpAddWarning uid gid mid rsn) st' n'
| step_get_user st n uid gid t :
    store_step r st n (OpGetUserInfractions uid gid t) st n
| step_count st n uid gid t :
    store_step r st n (OpGetInfractionCount uid gid t) st n
| step_by_id st n i :
    store_step r st n (OpGetInfractionById i) st n
| step_close st n :
    store_step r st n OpClose (close st) n
| step_backup st n path :
    store_step r st n (OpBackup path) st n
| step_stats st n :
    store_step r st n OpGetStats st n.

Inductive store_steps (r : rng) : store -> nat -> list store_op -> store -> nat -> Prop :=
| steps_nil st n : store_steps r st n [] st n
| steps_cons st n op ops st1 n1 st2 n2 :
    store_step r st n op st1 n1 ->
    store_steps r st1 n1 ops st2 n2 ->
    store_steps r st n (op :: ops) st2 n2.

End InfractionStore.

(* ================================================================== *)
(** ** Dispatcher (src/src/events/interactionCreate.ts)                *)
(* ================================================================== *)

Module Dispatcher.

(** Values a handler can throw. [String(v)] succeeds on Error instances
    and primitives; on an object without a usable conversion to a
    primitive (for instance [Object.create(null)]) it throws a TypeError. *)
Inductive thrown :=
| ThrownRuntime (e : js_error)       (* an Error raised by the runtime *)
| ThrownError (msg : string)         (* [new Error(msg)] or a subclass *)
| ThrownPrimitive (s : string)      (* a string, number, ...; [String(v) = s] *)
| ThrownUnconvertible.              (* [String(v)] throws *)

(** [err instanceof Error]. *)
Definition instanceof_Error (v : thrown) : bool :=
  match v with
  | ThrownRuntime _ | ThrownError _ => true
  | ThrownPrimitive _ | ThrownUnconvertible => false
  end.

(** Console output, one entry per [console.*] call. *)
Inductive log_entry :=
| LogLine (msg : string)                        (* console.log *)
| InfoLine (msg : string)                       (* console.info *)
| WarnLine (msg : string)                       (* console.warn *)
| ErrorLine (msg : string) (detail : thrown).   (* console.error(msg, err) *)

(** Messages sent back to the invoking user (all ephemeral). *)
Inductive sent_message :=
| Reply (content : string)
| FollowUp (content : string).

Inductive interaction_kind :=
| ChatInputCommand
| ButtonPress
| StringSelectMenu
| ModalSubmit
| OtherInteraction.  (* autocomplete, context-menu commands, other select menus *)

(** An inbound interaction: its kind, its key ([commandName] or
    [customId]), the user tag, the [replied]/[deferred] flags, and whether
    the platform accepts a reply or follow-up on it. *)
Record interaction := mk_interaction {
  kind : interaction_kind;
  key : string;
  user_tag : string;
  replied : bool;
  deferred : bool;
  platform_accepts : bool
}.

(** What [await command.execute(interaction)] does, as seen by the
    dispatcher: the flags it leaves on the interaction, its measured
    duration, and whether it resolves ([None]) or rejects. *)
Record command_run := mk_run {
  run_replied : bool;
  run_deferred : bool;
  run_ms : nat;
  run_outcome : option thrown
}.

Definition command := interaction -> command_run.

(** The [client.commands] collection. *)
Abbreviation commands := (gmap string command) (only parsing).

Record dstate := mk_dstate {
  logs : list log_entry;
  sent : list sent_message
}.

Definition empty_dstate : dstate := mk_dstate [] [].

Inductive completion (A : Type) :=
| Normal (a : A)
| Abrupt (v : thrown).
Arguments Normal {A} a.
Arguments Abrupt {A} v.

(** An async function body: state passing with abrupt completion. *)
Definition M (A : Type) := dstate -> completion A * dstate.

Definition ret {A} (a : A) : M A := fun s => (Normal a, s).
Definition bind {A B} (m : M A) (f : A -> M B) : M B :=
  fun s => match m s with
           | (Normal a, s') => f a s'
           | (Abrupt v, s') => (Abrupt v, s')
           end.
Definition raise {A} (v : thrown) : M A := fun s => (Abrupt v, s).
Definition try_catch {A} (m : M A) (h : thrown -> M A) : M A :=
  fun s => match m s with
           | (Normal a, s') => (Normal a, s')
           | (Abrupt v, s') => h v s'
           end.

Local Notation "x <- m ;; f" := (bind m (fun x => f)) (at level 65, m at next level, right associativity).
Local Notation "m ;;; f" := (bind m (fun _ => f)) (at level 65, right associativity).

Definition console (e : log_entry) : M unit :=
  fun s => (Normal tt, mk_dstate (logs s ++ [e]) (sent s)).

(** [interaction.reply] / [interaction.followUp]. *)
Definition send (i : interaction) (m : sent_message) : M unit :=
  fun s => if platform_accepts i then (Normal tt, mk_dstate (logs s) (sent s ++ [m]))
           else (Abrupt (ThrownRuntime ReplyFailed), s).

(** [String(err)]. *)
Definition js_String (v : thrown) : M string :=
  match v with
  | ThrownRuntime _ => ret "Error"
  | ThrownError msg => ret (String.append "Error: " msg)
  | ThrownPrimitive s => ret s
  | ThrownUnconvertible => raise (ThrownRuntime (TypeError "Cannot convert object to primitive value"))
  end.

(** The [error] argument of [sendErrorResponse]: a string or an Error. *)
Definition error_arg := (string + thrown)%type.

(** [sendErrorResponse]; [error] and [errorType] are not used by it. *)
Definition sendErrorResponse (i : interaction) (userMessage : string)
  (error : error_arg) (errorType : string) : M unit :=
  try_catch
    (if replied i || deferred i then send i (FollowUp userMessage)
     else send i (Reply userMessage))
    (fun replyErr => console (ErrorLine "Failed to reply with error:" replyErr)).

Definition after_run (i : interaction) (r : command_run) : interaction :=
  mk_interaction (kind i) (key i) (user_tag i) (run_replied r) (run_deferred r)
    (platform_accepts i).

(** [handleChatInputCommand]. [commands.has] followed by [commands.get]
    is one lookup. The run of the command is computed up front; it only
    depends on the interaction. *)
Definition handleChatInputCommand (cmds : commands) (i : interaction) : M unit :=
  let name := key i in
  match cmds !! name with
  | None =>
      console (WarnLine (String.append "Unknown command: " name)) ;;;
      sendErrorResponse i
        (String.append "Command `" (String.append name "` not found."))
        (inl (String.append "Unknown command: " name))
        "command_not_found"
  | Some cmd =>
      let run := cmd i in
      try_catch
        (console (LogLine (String.append "Running /"
                   (String.append name (String.append " by " (user_tag i))))) ;;;
         match run_outcome run with
         | None => console (LogLine (String.append name
                     (String.append " executed in " (String.append (pretty (run_ms run)) "ms"))))
         | Some v => raise v
         end)
        (fun err =>
           console (ErrorLine (String.append "Error in command "
                                 (String.append name ":")) err) ;;;
           e <- (if instanceof_Error err then ret (inr err)
                 else s <- js_String err ;; ret (inr (ThrownError s))) ;;
           sendErrorResponse (after_run i run)
             "Something went wrong while executing the command."
             e "command_execution_error")
  end.

Definition handleButtonInteraction (i : interaction) : M unit :=
  console (LogLine (String.append "Button: "
             (String.append (key i) (String.append " by " (user_tag i))))) ;;;
  try_catch
    (if String.eqb (key i) "ping_refresh" then ret tt
     else console (InfoLine (String.append "Unhandled button: " (key i))))
    (fun err => console (ErrorLine (String.append "Button error ("
                                      (String.append (key i) "):")) err)).

Definition handleSelectMenuInteraction (i : interaction) : M unit :=
  console (LogLine (String.append "Select Menu: "
             (String.append (key i) (String.append " by " (user_tag i))))) ;;;
  try_catch
    (console (InfoLine (String.append "Unhandled select menu: " (key i))))
    (fun err => console (ErrorLine (String.append "Select menu error ("
                                      (String.append (key i) "):")) err)).

Definition handleModalInteraction (i : interaction) : M unit :=
  console (LogLine (String.append "Modal: "
             (String.append (key i) (String.append " by " (user_tag i))))) ;;;
  try_catch
    (console (InfoLine (String.append "Unhandled modal: " (key i))))
    (fun err => console (ErrorLine (String.append "Modal error ("
                                      (String.append (key i) "):")) err)).

(** [execute]: the [interactionCreate] listener. *)
Definition execute (cmds : commands) (i : interaction) : M unit :=
  try_catch
    (match kind i with
     | ChatInputCommand => handleChatInputCommand cmds i
     | ButtonPress => handleButtonInteraction i
     | StringSelectMenu => handleSelectMenuInteraction i
     | ModalSubmit => handleModalInteraction i
     | OtherInteraction => ret tt
     end)
    (fun error => console (ErrorLine "Unexpected interaction handling error:" error)).

(** A stream of interactions delivered to the listener one after another. *)
Fixpoint execute_all (cmds : commands) (is : list interaction) : M unit :=
  match is with
  | [] => ret tt
  | i :: is' => execute cmds i ;;; execute_all cmds is'
  end.

End Dispatcher.

(* ================================================================== *)
(** ** Startup discovery (src/src/index.ts)                            *)
(* ================================================================== *)

Module Loader.

(** The [default] export of an imported module, as the shape checks see
    it. [data] is [Some name] when the module has a [data] property, with
    [name] its [data.name]; [customId] likewise. *)
Inductive default_export :=
| NotAnObject    (* no default export ([undefined]) or a primitive *)
| ExportObject (data : option string) (customId : option string)
    (has_execute : bool).

(** A handler file after the [.ts]/[.js] filter: its path and what
    [await import(filePath)] yields ([None]: the import rejects). *)
Record candidate := mk_candidate {
  file_path : string;
  imported : option default_export
}.

Inductive log_entry :=
| LogLine (msg : string)
| WarnLine (msg : string)
| ErrorLine (msg : string) (detail : js_error).

(** [Collection.set] (a [Map]): insert or overwrite. *)
Definition collection_set {V} (k : string) (v : V) (m : gmap string V) : gmap string V :=
  <[k := v]> m.

(** [Collection.get]. *)
Definition collection_get {V} (k : string) (m : gmap string V) : option V :=
  m !! k.

Record registries := mk_registries {
  commands : gmap string default_export;
  buttons : gmap string default_export;
  modals : gmap string default_export;
  selectMenus : gmap string default_export;
  logs : list log_entry
}.

Definition empty_registries : registries := mk_registries ∅ ∅ ∅ ∅ [].

Definition M (A : Type) := registries -> result A * registries.

Definition ret {A} (a : A) : M A := fun s => (Ok a, s).
Definition bind {A B} (m : M A) (f : A -> M B) : M B :=
  fun s => match m s with
           | (Ok a, s') => f a s'
           | (Throw e, s') => (Throw e, s')
           end.
Definition raise {A} (e : js_error) : M A := fun s => (Throw e, s).
Definition try_catch {A} (m : M A) (h : js_error -> M A) : M A :=
  fun s => match m s with
           | (Ok a, s') => (Ok a, s')
           | (Throw e, s') => h e s'
           end.

Local Notation "x <- m ;; f" := (bind m (fun x => f)) (at level 65, m at next level, right associativity).
Local Notation "m ;;; f" := (bind m (fun _ => f)) (at level 65, right associativity).

Definition console (e : log_entry) : M unit :=
  fun s => (Ok tt, mk_registries (commands s) (buttons s) (modals s) (selectMenus s)
                     (logs s ++ [e])).

Definition set_command (k : string) (v : default_export) : M unit :=
  fun s => (Ok tt, mk_registries (collection_set k v (commands s)) (buttons s)
                     (modals s) (selectMenus s) (logs s)).

Inductive component_group := Buttons | Modals | SelectMenus.

Definition set_component (g : component_group) (k : string) (v : default_export) : M unit :=
  fun s => (Ok tt,
    match g with
    | Buttons => mk_registries (commands s) (collection_set k v (buttons s)) (modals s) (selectMenus s) (logs s)
    | Modals => mk_registries (commands s) (buttons s) (collection_set k v (modals s)) (selectMenus s) (logs s)
    | SelectMenus => mk_registries (commands s) (buttons s) (modals s) (collection_set k v (selectMenus s)) (logs s)
    end).

(** [await import(filePath)] followed by [.default]. *)
Definition import_default (c : candidate) : M default_export :=
  match imported c with
  | Some d => ret d
  | None => raise (ImportFailed (file_path c))
  end.

(** The [in] operator on the default export: a TypeError unless it is an
    object. *)
Definition in_op (present : default_export -> bool) (d : default_export) : M bool :=
  match d with
  | NotAnObject => raise (TypeError "Cannot use 'in' operator")
  | ExportObject _ _ _ => ret (present d)
  end.

Definition has_data (d : default_export) : bool :=
  match d with ExportObject (Some _) _ _ => true | _ => false end.
Definition has_customId (d : default_export) : bool :=
  match d with ExportObject _ (Some _) _ => true | _ => false end.
Definition has_execute_prop (d : default_export) : bool :=
  match d with ExportObject _ _ e => e | _ => false end.

(** [a in d && b in d], with [&&] short-circuiting. *)
Definition both_in (p q : default_export -> bool) (d : default_export) : M bool :=
  b <- in_op p d ;; if b then in_op q d else ret false.

Definition data_name (d : default_export) : string :=
  match d with ExportObject (Some n) _ _ => n | _ => EmptyString end.
Definition custom_id (d : default_export) : string :=
  match d with ExportObject _ (Some n) _ => n | _ => EmptyString end.

(** [readdirSync] on a directory that may be missing. *)
Definition readdir {A} (path : string) (dir : option A) : M A :=
  match dir with
  | Some l => ret l
  | None => raise (DirectoryMissing path)
  end.

Fixpoint for_each {A} (l : list A) (f : A -> M unit) : M unit :=
  match l with
  | [] => ret tt
  | x :: l' => f x ;;; for_each l' f
  end.

(** The body of the inner [for (const file of commandFiles)] loop. *)
Definition load_command_file (c : candidate) : M unit :=
  d <- import_default c ;;
  ok <- both_in has_data has_execute_prop d ;;
  if ok then
    set_command (data_name d) d ;;;
    console (LogLine (String.append "Loaded command: "
               (String.append (data_name d) (String.append " from " (file_path c)))))
  else
    console (WarnLine (String.append "Command in "
               (String.append (file_path c) " is missing required properties."))).

Definition commands_size : M nat := fun s => (Ok (size (commands s)), s).

(** [loadCommands]: the [commands] tree, as the list of its folders
    with their candidate files ([None]: the directory cannot be read). *)
Definition loadCommands (tree : option (list (string * list candidate))) : M unit :=
  try_catch
    (folders <- readdir "commands" tree ;;
     console (LogLine (String.append "Loading commands from folders: "
                (String.concat ", " (map fst folders)))) ;;;
     for_each folders (fun folder => for_each (snd folder) load_command_file) ;;;
     n <- commands_size ;;
     console (LogLine (String.append "Loaded " (String.append (pretty n) " commands."))))
    (fun error => console (ErrorLine "Error loading commands: " error)).

Definition group_label (g : component_group) : string :=
  match g with
  | Buttons => "Loaded button: "
  | Modals => "Loaded modal: "
  | SelectMenus => "Loaded select menu: "
  end.

(** The loop body shared by [loadButtons], [loadModals] and
    [loadSelectMenus]: no [else] branch. *)
Definition load_component_file (g : component_group) (c : candidate) : M unit :=
  d <- import_default c ;;
  ok <- both_in has_customId has_execute_prop d ;;
  if ok then
    set_component g (custom_id d) d ;;;
    console (LogLine (String.append (group_label g)
               (String.append (custom_id d) (String.append " from " (file_path c)))))
  else ret tt.

(** [if (existsSync(path)) { ... }]: [None] when the directory is absent. *)
Definition load_components (g : component_group) (dir : option (list candidate)) : M unit :=
  match dir with
  | Some files => for_each files (load_component_file g)
  | None => ret tt
  end.

Definition loadButtons := load_components Buttons.
Definition loadModals := load_components Modals.
Definition loadSelectMenus := load_components SelectMenus.

Definition interactions_size : M nat :=
  fun s => (Ok (size (buttons s) + size (modals s) + size (selectMenus s))%nat, s).

(** [loadInteractions]: one [try] around the three groups. *)
Definition loadInteractions (bs ms ss : option (list candidate)) : M unit :=
  try_catch
    (loadButtons bs ;;; loadModals ms ;;; loadSelectMenus ss ;;;
     n <- interactions_size ;;
     console (LogLine (String.append "Total interactions loaded: " (pretty n))))
    (fun error => console (ErrorLine "Error loading interactions:" error)).

End Loader.

(* ================================================================== *)
(** ** [getStats] of the infraction store (src/unnamed/part_002)       *)
(* ================================================================== *)

Module InfractionStats.
Import InfractionStore.

(** The object returned by [getStats]. *)
Record stats := mk_stats {
  infractions : nat;
  warns : nat;
  mutes : nat;
  kicks : nat;
  bans : nat;
  timeouts : nat
}.

(** [SELECT COUNT( * ) ... WHERE type = ?] for one type. *)
Definition count_type (rs : list row) (t : InfractionType) : nat :=
  length (List.filter (fun r => bool_decide (row_type r = t)) rs).

(** [getStats]: six COUNT queries; the first [prepare] throws on a closed
    connection. *)
Definition getStats (st : store) : result stats :=
  if db_open st then
    Ok (mk_stats (length (rows st))
          (count_type (rows st) WARN) (count_type (rows st) MUTE)
          (count_type (rows st) KICK) (count_type (rows st) BAN)
          (count_type (rows st) TIMEOUT))
  else Throw DatabaseNotOpen.

End InfractionStats.

(* ================================================================== *)
(** ** The warn command (src/src/commands/moderation/warn.ts)          *)
(* ================================================================== *)

Module WarnCommand.

(** A guild channel: its name, [isTextBased()], and whether [send]
    resolves. *)
Record channel := mk_channel {
  channel_name : string;
  isTextBased : bool;
  channel_accepts : bool
}.

(** [interaction.guild]: id, name, [ownerId], [channels.cache] in
    iteration order. *)
Record guild_info := mk_guild {
  guild_key : string;
  guild_name : string;
  ownerId : string;
  guild_channels : list channel
}.

(** [interaction.member]: id, [user.tag], the names in [roles.cache] and
    [roles.highest.position]. *)
Record member_info := mk_member {
  member_id : string;
  member_tag : string;
  role_names : list string;
  highest_position : Z
}.

(** [options.getUser("target")]. *)
Record user_info := mk_user {
  target_id : string;
  target_tag : string
}.

(** A fetched [GuildMember]: [user.id], [manageable],
    [roles.highest.position], and whether DMs to it are delivered. *)
Record target_member := mk_target {
  tm_user_id : string;
  manageable : bool;
  target_highest : Z;
  accepts_dm : bool
}.

(** One invocation of [/warn]. [fetch id] is
    [guild.members.fetch(id).catch(() => null)]; [replies_accepted] says
    whether [reply] and [followUp] resolve on this interaction. *)
Record warn_call := mk_warn_call {
  guild : option guild_info;
  member : option member_info;
  target : option user_info;
  reason_opt : option string;
  evidence_opt : option string;
  invoker_id : string;
  fetch : string -> option target_member;
  replies_accepted : bool
}.

(** What the command does that can be observed: messages on the
    interaction (the error embed is the one of [sendErrorResponse],
    whether sent by [reply] or [followUp]), the log-channel embed, DMs
    and console lines. *)
Inductive warn_output :=
| ErrorEmbed (description : string)
| ContentReply (content : string)
| LogEmbed (channel : string) (footer : string) (evidence : option string)
| DirectMessage (title : string)
| ConsoleLog (text : string)
| ConsoleError (text : string).

(** [String.prototype.includes]. *)
Fixpoint includes (s t : string) : bool :=
  String.prefix t s ||
  match s with
  | EmptyString => false
  | String _ s' => includes s' t
  end.

Definition allowedRoles : list string :=
  ["Community Moderator"; "Trial Community Moderator"; "Trial VC Moderator";
   "VC Moderator"; "Community Manager"; "Administrator"].

Definition logChannelNames : list string :=
  ["logs"; "mod-logs"; "moderation-logs"; "audit-logs"; "staff-logs"; "mod-log"].

(** The [for (const channelName of logChannelNames)] loop: for each name
    in turn, [channels.cache.find] of a text channel with that name; the
    loop stops at the first hit. *)
Fixpoint find_log_channel (names : list string) (cs : list channel) : option channel :=
  match names with
  | [] => None
  | nm :: names' =>
      match List.find (fun ch => String.eqb (channel_name ch) nm && isTextBased ch) cs with
      | Some ch => Some ch
      | None => find_log_channel names' cs
      end
  end.

Definition newline : string := String (ascii_of_nat 10) EmptyString.

(** The result object of [warnUser]. *)
Inductive warn_result :=
| WarnSucceeded (infractionId : string) (evidence : option string)
| WarnFailed (errorReason : string).

(** The checks of [execute] up to the call of [warnUser]. *)
Inductive warn_checked :=
| Checked (g : guild_info) (m : member_info) (u : user_info) (reason : string)
    (tm : target_member).

Section Warn.

(** [String.prototype.toLowerCase] (Unicode case mapping). *)
Variable toLowerCase : string -> string.

Definition hasAllowedRole (m : member_info) : bool :=
  existsb (fun role => existsb (fun allowedRole =>
             includes (toLowerCase role) (toLowerCase allowedRole)) allowedRoles)
    (role_names m).

Definition sendErrorResponse (c : warn_call) (message : string) : list warn_output :=
  if replies_accepted c then [ErrorEmbed message]
  else [ConsoleError "Failed to send error response:"].

(** [execute] up to [warnUser]: the message of the first failing check,
    or what the checks established. [!reason] also rejects the empty
    string. *)
Definition warn_guard (c : warn_call) : string + warn_checked :=
  match guild c with
  | None => inl "This command can only be used in a server."
  | Some g =>
  match member c with
  | None => inl "Issue getting the sending member."
  | Some m =>
  match target c with
  | None => inl "Please specify a user to warn."
  | Some u =>
  match reason_opt c with
  | None | Some EmptyString => inl "Please input a reason for the warning."
  | Some reason =>
  if negb (hasAllowedRole m) then inl "You don't have permission to warn users." else
  match fetch c (target_id u) with
  | None => inl "Could not find that user in this server."
  | Some tm =>
  if negb (manageable tm) then
    inl (String.append "I cannot warn " (String.append (target_tag u)
           " due to role hierarchy. Their highest role is equal to or higher than mine."))
  else if Z.leb (highest_position m) (target_highest tm) &&
          negb (String.eqb (member_id m) (ownerId g)) then
    inl "You cannot warn someone with an equal or higher role."
  else inr (Checked g m u reason tm)
  end end end end end.

(** [interaction.options.getString("evidence") || undefined]. *)
Definition evidence_of (c : warn_call) : option string :=
  match evidence_opt c with
  | None | Some EmptyString => None
  | Some e => Some e
  end.

(** [warnUser]: the call of [database.addWarning] (a relation, as
    [addWarning] draws random ids and reads the clock). *)
Inductive warnUser (st : InfractionStore.store) (r : InfractionStore.rng) (n : nat) (now : Z)
  (c : warn_call) (tm : target_member) (reason : string)
  : warn_result -> list warn_output -> InfractionStore.store -> nat -> Prop :=
| warnUser_no_guild :
    guild c = None ->
    warnUser st r n now c tm reason (WarnFailed "Guild information not available.") [] st n
| warnUser_saved g i st' n' :
    guild c = Some g ->
    InfractionStore.addWarning st r n now (tm_user_id tm) (guild_key g) (invoker_id c) reason
      (Ok i) st' n' ->
    warnUser st r n now c tm reason (WarnSucceeded i (evidence_of c)) [] st' n'
| warnUser_failed g e st' n' :
    guild c = Some g ->
    InfractionStore.addWarning st r n now (tm_user_id tm) (guild_key g) (invoker_id c) reason
      (Throw e) st' n' ->
    warnUser st r n now c tm reason (WarnFailed "Failed to save warning to database.")
      [ConsoleError "Error warning user:"] st' n'.

Definition warned_console_line (moderator target reason : string) : string :=
  String.append "🔺 User warned by " (String.append moderator (String.append ": "
    (String.append target (String.append " (Reason: " (String.append reason ")"))))).

(** [sendToLoggingChannel] after a successful [warnUser]; its own
    [catch] keeps every failure inside. *)
Definition sendToLoggingChannel (g : guild_info) (moderator target reason : string)
  (infractionId : string) (evidence : option string) : list warn_output :=
  match find_log_channel logChannelNames (guild_channels g) with
  | Some ch =>
      if channel_accepts ch then
        [LogEmbed (channel_name ch) (String.append "Infraction ID " infractionId) evidence]
      else [ConsoleError "Failed to send to logging channel:";
            ConsoleLog (warned_console_line moderator target reason)]
  | None => [ConsoleLog (warned_console_line moderator target reason)]
  end.

(** [sendWarnMessageToUser]: the warning and the appeal DM; a failure is
    only logged. *)
Definition sendWarnMessageToUser (g : guild_info) (tm : target_member) : list warn_output :=
  if accepts_dm tm then
    [DirectMessage (String.append "Official Warning in " (guild_name g));
     DirectMessage "Appeal Information"]
  else [ConsoleError "Failed to send warning message to user:"].

(** The rest of [execute] once [warnUser] has returned. A failing
    [reply] lands in the outer [catch]. *)
Definition after_warnUser (c : warn_call) (g : guild_info) (m : member_info) (u : user_info)
  (reason : string) (tm : target_member) (res : warn_result) : list warn_output :=
  match res with
  | WarnSucceeded i ev =>
      if replies_accepted c then
        ContentReply (String.append "Successfully warned " (String.append (target_tag u)
          (String.append newline (String.append "Reason: " (String.append reason
          (String.append " Infraction ID: `" (String.append i "`"))))))) ::
        sendToLoggingChannel g (member_tag m) (target_tag u) reason i ev ++
        sendWarnMessageToUser g tm
      else ConsoleError "Error executing warn command:" ::
           sendErrorResponse c "An error occurred while executing the command."
  | WarnFailed er =>
      sendErrorResponse c (match er with EmptyString => "Failed to warn user." | _ => er end)
  end.

(** [execute] of [/warn]: its outputs and the store afterwards. *)
Inductive execute (st : InfractionStore.store) (r : InfractionStore.rng) (n : nat) (now : Z)
  (c : warn_call) : list warn_output -> InfractionStore.store -> nat -> Prop :=
| warn_rejected msg :
    warn_guard c = inl msg ->
    execute st r n now c (sendErrorResponse c msg) st n
| warn_ran g m u reason tm res outs st' n' :
    warn_guard c = inr (Checked g m u reason tm) ->
    warnUser st r n now c tm reason res outs st' n' ->
    execute st r n now c (outs ++ after_warnUser c g m u reason tm res) st' n'.

End Warn.

End WarnCommand.

(* ================================================================== *)
(** ** The nickname command (src/src/commands/community/nickname.ts,   *)
(**    lines 1-430)                                                    *)
(* ================================================================== *)

Module NicknameCommand.

(** A JavaScript string as its UTF-16 code units: [length], [charCodeAt]
    and a regular expression without the [u] flag all work on them. *)
Definition utf16 := list Z.

(** [\s] of ECMAScript regular expressions: WhiteSpace and
    LineTerminator code units. *)
Definition js_whitespace (u : Z) : bool :=
  (u =? 9)%Z || (u =? 10)%Z || (u =? 11)%Z || (u =? 12)%Z || (u =? 13)%Z ||
  (u =? 32)%Z || (u =? 160)%Z || (u =? 5760)%Z || ((8192 <=? u) && (u <=? 8202))%Z ||
  (u =? 8232)%Z || (u =? 8233)%Z || (u =? 8239)%Z || (u =? 8287)%Z ||
  (u =? 12288)%Z || (u =? 65279)%Z.

(** The class [[a-zA-Z0-9\s\-_]]. *)
Definition in_allowed_class (u : Z) : bool :=
  ((97 <=? u) && (u <=? 122))%Z || ((65 <=? u) && (u <=? 90))%Z ||
  ((48 <=? u) && (u <=? 57))%Z || js_whitespace u || (u =? 45)%Z || (u =? 95)%Z.

(** [/^[a-zA-Z0-9\s\-_]+$/.test(s)]: one or more code units, all in the
    class ([$] without the [m] flag is the end of input). *)
Definition allowedPattern_test (s : utf16) : bool :=
  match s with
  | [] => false
  | _ => forallb in_allowed_class s
  end.

(** The range test in the loop of [isValidNickname]. *)
Definition blocked_code (charCode : Z) : bool :=
  ((0x1d400 <=? charCode) && (charCode <=? 0x1d7ff))%Z ||
  ((0x1f100 <=? charCode) && (charCode <=? 0x1f1ff))%Z ||
  ((0x2100 <=? charCode) && (charCode <=? 0x214f))%Z ||
  ((0xff00 <=? charCode) && (charCode <=? 0xffef))%Z ||
  ((0x0400 <=? charCode) && (charCode <=? 0x04ff))%Z ||
  ((0x0370 <=? charCode) && (charCode <=? 0x03ff))%Z.

(** The [for (let i = 0; i < nickname.length; i++)] loop. *)
Fixpoint charCode_loop (s : utf16) : bool :=
  match s with
  | [] => true
  | charCode :: s' => if blocked_code charCode then false else charCode_loop s'
  end.

Definition isValidNickname (nickname : utf16) : bool :=
  if negb (allowedPattern_test nickname) then false
  else charCode_loop nickname.

(** Outcome of [member.setNickname(...)]: it resolves, rejects with an
    error object (with its [code], if any), or rejects with [null] or
    [undefined] (then reading [error.code] throws). *)
Inductive set_outcome :=
| SetResolved
| SetRejected (code : option Z)
| SetRejectedNullish.

(** A [GuildMember] the command may rename. *)
Record target_member := mk_target {
  tm_id : string;
  tm_tag : string;
  tm_nickname : option utf16;
  tm_manageable : bool;
  tm_highest : Z;
  tm_set : set_outcome
}.

(** [interaction.member]: its id, tag, role names, highest position,
    [permissions.has(ManageNicknames)], and itself as a member that can
    be renamed (nickname and [setNickname] outcome). *)
Record member_info := mk_member {
  member_id : string;
  member_tag : string;
  role_names : list string;
  highest_position : Z;
  manage_nicknames : bool;
  member_nickname : option utf16;
  member_set : set_outcome
}.

Definition member_as_target (m : member_info) : target_member :=
  mk_target (member_id m) (member_tag m) (member_nickname m) false (highest_position m)
    (member_set m).

(** [interaction.guild]: [ownerId], [channels.cache], and
    [members.me?.permissions.has(ManageNicknames)] ([None]: [me] is not
    cached). *)
Record guild_info := mk_guild {
  ownerId : string;
  guild_channels : list WarnCommand.channel;
  bot_manage_nicknames : option bool
}.

(** [options.getUser("user")]. *)
Record user_info := mk_user {
  user_id : string;
  user_tag : string
}.

Record nick_call := mk_nick_call {
  guild : option guild_info;
  member : option member_info;
  target_user : option user_info;
  nickname_opt : option utf16;
  reason_opt : option string;
  invoker_tag : string;
  fetch : string -> option target_member;
  replies_accepted : bool
}.

(** The [NicknameResult] object. *)
Record nick_result := mk_nick_result {
  success : bool;
  oldNickname : option utf16;
  newNickname : option utf16;
  res_user : string;
  res_targetUser : option string;
  res_moderator : option string;
  res_reason : option string;
  isModAction : bool;
  errorReason : option string
}.

Inductive nick_output :=
| SetNickname (member : string) (nickname : option utf16) (auditLogReason : option string)
| ErrorEmbed (description : string)
| ContentReply (content : string)
| ResultEmbed (title : string) (description : string)
| LogChannelEmbed (channel : string) (title : string)
| ConsoleLog
| ConsoleError (text : string).

(** Output and abrupt completion; the thrown value is not inspected by
    any handler of this file. *)
Inductive step (A : Type) :=
| Done (a : A)
| Threw.
Arguments Done {A} a.
Arguments Threw {A}.

Definition NM (A : Type) := list nick_output -> step A * list nick_output.

Definition ret {A} (a : A) : NM A := fun o => (Done a, o).
Definition bind {A B} (m : NM A) (f : A -> NM B) : NM B :=
  fun o => match m o with
           | (Done a, o') => f a o'
           | (Threw, o') => (Threw, o')
           end.
Definition throw {A} : NM A := fun o => (Threw, o).
Definition try_catch {A} (m : NM A) (h : NM A) : NM A :=
  fun o => match m o with
           | (Done a, o') => (Done a, o')
           | (Threw, o') => h o'
           end.
Definition emit (x : nick_output) : NM unit := fun o => (Done tt, o ++ [x]).

Local Notation "x <- m ;; f" := (bind m (fun x => f)) (at level 65, m at next level, right associativity).
Local Notation "m ;;; f" := (bind m (fun _ => f)) (at level 65, right associativity).

Definition allowedRoles : list string := ["Ethan"].

Definition logChannelNames : list string :=
  ["logs"; "mod-logs"; "moderation-logs"; "audit-logs"; "staff-logs"].

(** The [errorReason] chosen in the [catch] of [changeNickname]. *)
Definition error_reason (code : option Z) (isModAction isServerOwner : bool) : string :=
  match code with
  | Some 50013%Z =>
      if isServerOwner then
        "Server owners cannot change their own nicknames through bots. You'll need to change it manually through Discord's interface."
      else if isModAction then "Missing permissions or role hierarchy prevents this action"
      else "You don't have permission to change your nickname in this server"
  | Some 50035%Z => "Invalid nickname (too long or contains forbidden characters)"
  | Some 50001%Z => "Missing access to perform this action"
  | _ => "Unknown error occurred"
  end.

Definition truthy (s : string) : bool :=
  match s with EmptyString => false | _ => true end.

(** [`${x}`] of an optional string. *)
Definition show_opt (x : option string) : string :=
  match x with Some s => s | None => "undefined" end.

Section Nickname.

(** [String.prototype.toLowerCase] (Unicode case mapping). *)
Variable toLowerCase : string -> string.
(** A UTF-16 string interpolated into message text. *)
Variable nick_text : utf16 -> string.

Definition hasModeratorRole (m : member_info) : bool :=
  existsb (fun role => existsb (fun allowedRole =>
             WarnCommand.includes (toLowerCase role) (toLowerCase allowedRole)) allowedRoles)
    (role_names m).

Definition reply (c : nick_call) (x : nick_output) : NM unit :=
  if replies_accepted c then emit x else throw.

Definition sendErrorResponse (c : nick_call) (message : string) : NM unit :=
  try_catch (reply c (ErrorEmbed message))
    (emit (ConsoleError "Failed to send error response:")).

Definition handleNicknameError (c : nick_call) : NM unit :=
  try_catch (reply c (ErrorEmbed "Failed to execute nickname command"))
    (emit (ConsoleError "Failed to send error message:")).

Definition changeNickname (tm : target_member) (nn : option utf16)
  (moderator reason : option string) (modAction serverOwner : bool) : NM nick_result :=
  let auditLogReason :=
    if modAction then
      match moderator with
      | Some mo => if truthy mo then Some (String.append "Changed by "
                     (String.append mo (String.append ": " (show_opt reason))))
                   else None
      | None => None
      end
    else None in
  emit (SetNickname (tm_id tm) nn auditLogReason) ;;;
  match tm_set tm with
  | SetResolved =>
      ret (mk_nick_result true (tm_nickname tm) nn (tm_tag tm)
             (if modAction then Some (tm_tag tm) else None) moderator reason modAction None)
  | SetRejected code =>
      emit (ConsoleError "Failed to change nickname:") ;;;
      ret (mk_nick_result false (tm_nickname tm) nn (tm_tag tm)
             (if modAction then Some (tm_tag tm) else None) moderator reason modAction
             (Some (error_reason code modAction serverOwner)))
  | SetRejectedNullish =>
      emit (ConsoleError "Failed to change nickname:") ;;; throw
  end.

Definition nonempty_nick (x : option utf16) : bool :=
  match x with Some (_ :: _) => true | _ => false end.

(** Title and description of [createNicknameEmbed] (footer, fields and
    colour are not modelled). *)
Definition createNicknameEmbed (res : nick_result) : nick_output :=
  if success res then
    if isModAction res then
      if nonempty_nick (newNickname res) then
        ResultEmbed "🔧 Nickname Updated"
          (String.append "**" (String.append (show_opt (res_targetUser res))
            (String.append "**'s nickname has been changed to **"
              (String.append (nick_text (default [] (newNickname res))) "**"))))
      else
        ResultEmbed "🔧 Nickname Cleared"
          (String.append "**" (String.append (show_opt (res_targetUser res))
             "**'s nickname has been cleared"))
    else
      if nonempty_nick (newNickname res) then
        ResultEmbed "✅ Nickname Updated"
          (String.append "Your nickname has been changed to **"
             (String.append (nick_text (default [] (newNickname res))) "**"))
      else ResultEmbed "✅ Nickname Cleared" "Your nickname has been cleared"
  else
    let description :=
      if isModAction res then
        String.append "Could not change **" (String.append (show_opt (res_targetUser res))
          "**'s nickname.")
      else "Could not change your nickname." in
    ResultEmbed "❌ Failed to Update Nickname"
      (match errorReason res with
       | Some er => if truthy er then String.append description (String.append " Reason: " er)
                    else description
       | None => description
       end).

Definition embed_title (x : nick_output) : string :=
  match x with ResultEmbed t _ => t | _ => EmptyString end.

(** [sendToLoggingChannel] after a moderator's successful change; its own
    [catch] keeps every failure inside. *)
Definition sendToLoggingChannel (g : guild_info) (res : nick_result) : NM unit :=
  match WarnCommand.find_log_channel logChannelNames (guild_channels g) with
  | Some ch =>
      if WarnCommand.channel_accepts ch then
        emit (LogChannelEmbed (WarnCommand.channel_name ch) (embed_title (createNicknameEmbed res)))
      else emit (ConsoleError "Failed to send to logging channel:") ;;; emit ConsoleLog
  | None => emit ConsoleLog
  end.

(** The body of the [try] of [execute]. *)
Definition execute_body (c : nick_call) : NM unit :=
  match guild c with
  | None => sendErrorResponse c "This command can only be used in a server."
  | Some g =>
  let nn := nickname_opt c in
  let reason := match reason_opt c with
                | Some r => if truthy r then r else "No reason provided"
                | None => "No reason provided"
                end in
  if nonempty_nick nn && negb (isValidNickname (default [] nn)) then
    sendErrorResponse c
      "Invalid nickname. Only letters, numbers, spaces, underscores, and hyphens are allowed."
  else
  match member c with
  | None => sendErrorResponse c "Could not find your member information."
  | Some m =>
  match target_user c with
  | Some u =>
    if negb (String.eqb (user_id u) (member_id m)) then
      let isServerOwner := String.eqb (member_id m) (ownerId g) in
      if negb (hasModeratorRole m) && negb (manage_nicknames m) && negb isServerOwner then
        sendErrorResponse c
          "You don't have permission to manage other users' nicknames. You need a moderator role or the 'Manage Nicknames' permission."
      else if negb (default false (bot_manage_nicknames g)) then
        sendErrorResponse c
          "I don't have permission to manage nicknames. Please ask an administrator to grant me the 'Manage Nicknames' permission."
      else
      match fetch c (user_id u) with
      | None => sendErrorResponse c "Could not find that user in this server."
      | Some tm =>
        if negb (tm_manageable tm) then
          sendErrorResponse c (String.append "I cannot change " (String.append (user_tag u)
            "'s nickname due to role hierarchy. Their highest role is equal to or higher than mine."))
        else if Z.leb (highest_position m) (tm_highest tm) &&
                negb (String.eqb (member_id m) (ownerId g)) then
          sendErrorResponse c
            "You cannot change the nickname of someone with an equal or higher role."
        else
          res <- changeNickname tm nn (Some (member_tag m)) (Some reason) true false ;;
          if success res then
            reply c (ContentReply "Nickname updated.") ;;; sendToLoggingChannel g res
          else reply c (createNicknameEmbed res)
      end
    else
      (* [targetUser] is the invoker: the self branch, with a fetch. *)
      match fetch c (user_id u) with
      | None => sendErrorResponse c "Could not find user information."
      | Some tm =>
          res <- (if String.eqb (member_id m) (ownerId g) && String.eqb (tm_id tm) (member_id m)
                  then changeNickname tm nn None None false true
                  else changeNickname tm nn None None false false) ;;
          reply c (createNicknameEmbed res)
      end
  | None =>
      let tm := member_as_target m in
      res <- (if String.eqb (member_id m) (ownerId g) && String.eqb (tm_id tm) (member_id m)
              then changeNickname tm nn None None false true
              else changeNickname tm nn None None false false) ;;
      reply c (createNicknameEmbed res)
  end
  end
  end.

Definition execute (c : nick_call) : list nick_output :=
  snd (try_catch (execute_body c)
         (emit (ConsoleError "Error in nickname command:") ;;; handleNicknameError c) []).

End Nickname.

End NicknameCommand.

(* ================================================================== *)
(** ** [loadEvents] (src/src/index.ts)                                 *)
(* ================================================================== *)

Module EventLoader.
Import Loader.

(** The module namespace returned by [await import(filePath)] for an
    event file: its named export [name] if any, the truthiness of
    [once], and whether it exports [execute]. A namespace is always an
    object, so [in] never throws on it. *)
Record event_module := mk_event_module {
  ev_name : option string;
  ev_once : bool;
  ev_has_execute : bool
}.

Record event_file := mk_event_file {
  ev_path : string;
  ev_import : option event_module
}.

(** [client.once] / [client.on]. *)
Inductive listener_kind := OnceListener | OnListener.

Record ev_state := mk_ev_state {
  listeners : list (listener_kind * string);
  ev_logs : list log_entry
}.

Definition EM (A : Type) := ev_state -> result A * ev_state.

Definition eret {A} (a : A) : EM A := fun s => (Ok a, s).
Definition ebind {A B} (m : EM A) (f : A -> EM B) : EM B :=
  fun s => match m s with
           | (Ok a, s') => f a s'
           | (Throw e, s') => (Throw e, s')
           end.
Definition etry_catch {A} (m : EM A) (h : js_error -> EM A) : EM A :=
  fun s => match m s with
           | (Ok a, s') => (Ok a, s')
           | (Throw e, s') => h e s'
           end.

Local Notation "x <- m ;; f" := (ebind m (fun x => f)) (at level 65, m at next level, right associativity).
Local Notation "m ;;; f" := (ebind m (fun _ => f)) (at level 65, right associativity).

Definition elog (e : log_entry) : EM unit :=
  fun s => (Ok tt, mk_ev_state (listeners s) (ev_logs s ++ [e])).

Definition register (k : listener_kind) (name : string) : EM unit :=
  fun s => (Ok tt, mk_ev_state (listeners s ++ [(k, name)]) (ev_logs s)).

Definition import_event (f : event_file) : EM event_module :=
  fun s => match ev_import f with
           | Some ev => (Ok ev, s)
           | None => (Throw (ImportFailed (ev_path f)), s)
           end.

Fixpoint efor_each {A} (l : list A) (f : A -> EM unit) : EM unit :=
  match l with
  | [] => eret tt
  | x :: l' => f x ;;; efor_each l' f
  end.

(** The body of [for (const file of eventFiles)]. *)
Definition load_event_file (f : event_file) : EM unit :=
  ev <- import_event f ;;
  match ev_name ev with
  | Some name =>
      if ev_has_execute ev then
        register (if ev_once ev then OnceListener else OnListener) name ;;;
        elog (LogLine (String.append "Loaded Event: " (String.append name
               (String.append " (" (String.append (if ev_once ev then "once" else "on") ")")))))
      else elog (LogLine (String.append "Event at " (String.append (ev_path f)
                   " is missing required properties.")))
  | None => elog (LogLine (String.append "Event at " (String.append (ev_path f)
                   " is missing required properties.")))
  end.

(** [loadEvents]: [None] when [existsSync(eventsPath)] is false. *)
Definition loadEvents (dir : option (list event_file)) : EM unit :=
  etry_catch
    (match dir with
     | None => elog (LogLine "Events directory not found. Skipping event loading.")
     | Some eventFiles =>
         efor_each eventFiles load_event_file ;;;
         elog (LogLine (String.append "Total Events Loaded: " (pretty (length eventFiles))))
     end)
    (fun error => elog (ErrorLine "Error loading events:" error)).

End EventLoader.

(* ================================================================== *)
(** ** The older DatabaseManager (src/src/index.ts, lines 222-447):    *)
(**    guild settings, warnings with integer ids, stored nicknames     *)
(* ================================================================== *)

Module LegacyDatabase.

(** A row of [guild_settings]; NULL is [None]. *)
Record guild_row := mk_guild_row {
  prefix : option string;
  mod_log_channel : option string;
  mute_role : option string;
  auto_mod_enabled : Z;
  gs_created_at : Z;
  gs_updated_at : Z
}.

(** A row of [user_warnings]. *)
Record warning_row := mk_warning_row {
  w_id : Z;
  w_user_id : string;
  w_guild_id : string;
  w_moderator_id : string;
  w_reason : string;
  w_created_at : Z
}.

(** A row of [user_nicknames], keyed by [(user_id, guild_id)]. *)
Record nickname_row := mk_nickname_row {
  nickname : string;
  set_by : string;
  n_created_at : Z
}.

(** The connection and the three tables; [warnings_seq] is the
    [sqlite_sequence] entry of the AUTOINCREMENT table [user_warnings]. *)
Record ldb := mk_ldb {
  ldb_open : bool;
  guild_settings : gmap string guild_row;
  user_warnings : list warning_row;
  warnings_seq : Z;
  user_nicknames : gmap (string * string) nickname_row
}.

(** [GuildSettings] as returned by [getGuildSettings]. *)
Record GuildSettings := mk_settings {
  guildId : string;
  s_prefix : option string;
  modLogChannel : option string;
  muteRole : option string;
  autoModEnabled : bool;
  createdAt : Z;
  updatedAt : Z
}.

(** The [Partial<GuildSettings>] argument: an absent property is [None]. *)
Record settings_patch := mk_patch {
  p_prefix : option string;
  p_modLogChannel : option string;
  p_muteRole : option string;
  p_autoModEnabled : option bool
}.

Definition no_settings : settings_patch := mk_patch None None None None.

Record UserNickname := mk_user_nickname {
  n_userId : string;
  n_guildId : string;
  n_nickname : string;
  setBy : string;
  n_createdAt : Z
}.

Definition LM (A : Type) := ldb -> result A * ldb.

Definition lret {A} (a : A) : LM A := fun s => (Ok a, s).
Definition lbind {A B} (m : LM A) (f : A -> LM B) : LM B :=
  fun s => match m s with
           | (Ok a, s') => f a s'
           | (Throw e, s') => (Throw e, s')
           end.

Local Notation "x <- m ;; f" := (lbind m (fun x => f)) (at level 65, m at next level, right associativity).
Local Notation "m ;;; f" := (lbind m (fun _ => f)) (at level 65, right associativity).

(** [this.db.prepare(...)]: throws once the connection is closed. *)
Definition prepare : LM unit :=
  fun s => if ldb_open s then (Ok tt, s) else (Throw DatabaseNotOpen, s).

(** [x || null] on an optional string. *)
Definition or_null (x : option string) : option string :=
  match x with
  | Some EmptyString => None
  | _ => x
  end.

(** SQL [COALESCE(x, y)]. *)
Definition coalesce {A} (x y : option A) : option A :=
  match x with Some _ => x | None => y end.

Definition getGuildSettings (gid : string) : LM (option GuildSettings) :=
  prepare ;;;
  fun s => (Ok (match guild_settings s !! gid with
                | Some r => Some (mk_settings gid (prefix r) (mod_log_channel r) (mute_role r)
                                   (negb (auto_mod_enabled r =? 0)%Z)
                                   (gs_created_at r) (gs_updated_at r))
                | None => None
                end), s).

(** [createOrUpdateGuildSettings]: [INSERT ... ON CONFLICT(guild_id) DO
    UPDATE]; [now] is CURRENT_TIMESTAMP. The insert gives every column
    explicitly, so the column defaults do not apply. *)
Definition createOrUpdateGuildSettings (now : Z) (gid : string) (settings : settings_patch)
  : LM unit :=
  prepare ;;;
  fun s =>
    let row :=
      match guild_settings s !! gid with
      | None =>
          mk_guild_row (or_null (p_prefix settings)) (or_null (p_modLogChannel settings))
            (or_null (p_muteRole settings))
            (match p_autoModEnabled settings with Some true => 1 | _ => 0 end)%Z now now
      | Some old =>
          mk_guild_row (coalesce (or_null (p_prefix settings)) (prefix old))
            (coalesce (or_null (p_modLogChannel settings)) (mod_log_channel old))
            (coalesce (or_null (p_muteRole settings)) (mute_role old))
            (match p_autoModEnabled settings with
             | Some b => if b then 1 else 0
             | None => auto_mod_enabled old
             end)%Z
            (gs_created_at old) now
      end in
    (Ok tt, mk_ldb (ldb_open s) (<[gid := row]> (guild_settings s)) (user_warnings s)
              (warnings_seq s) (user_nicknames s)).

Fixpoint max_warning_id (ws : list warning_row) : Z :=
  match ws with
  | [] => 0%Z
  | w :: ws' => Z.max (w_id w) (max_warning_id ws')
  end.

(** [addWarning]: the row gets the AUTOINCREMENT rowid, one more than the
    largest of the sequence entry and the ids in the table (the
    [SQLITE_FULL] case at 2^63-1 is not modelled); [lastInsertRowid] is
    returned. *)
Definition addWarning (now : Z) (uid gid mid reason : string) : LM Z :=
  createOrUpdateGuildSettings now gid no_settings ;;;
  prepare ;;;
  fun s =>
    let rowid := (Z.max (warnings_seq s) (max_warning_id (user_warnings s)) + 1)%Z in
    (Ok rowid, mk_ldb (ldb_open s) (guild_settings s)
                 (user_warnings s ++ [mk_warning_row rowid uid gid mid reason now])
                 rowid (user_nicknames s)).

Definition getWarningCount (uid gid : string) : LM nat :=
  prepare ;;;
  fun s => (Ok (length (List.filter (fun w => String.eqb (w_user_id w) uid &&
                                               String.eqb (w_guild_id w) gid)
                          (user_warnings s))), s).

(** [setUserNickname]: the insert and the conflict update write the same
    three columns. *)
Definition setUserNickname (now : Z) (uid gid nick setBy' : string) : LM unit :=
  createOrUpdateGuildSettings now gid no_settings ;;;
  prepare ;;;
  fun s => (Ok tt, mk_ldb (ldb_open s) (guild_settings s) (user_warnings s) (warnings_seq s)
                     (<[(uid, gid) := mk_nickname_row nick setBy' now]> (user_nicknames s))).

Definition getUserNickname (uid gid : string) : LM (option UserNickname) :=
  prepare ;;;
  fun s => (Ok (match user_nicknames s !! (uid, gid) with
                | Some r => Some (mk_user_nickname uid gid (nickname r) (set_by r) (n_created_at r))
                | None => None
                end), s).

(** [removeUserNickname]: [result.changes > 0]. *)
Definition removeUserNickname (uid gid : string) : LM bool :=
  prepare ;;;
  fun s =>
    let changes : nat := match user_nicknames s !! (uid, gid) with Some _ => 1 | None => 0 end in
    (Ok (0 <? changes)%nat,
     mk_ldb (ldb_open s) (guild_settings s) (user_warnings s) (warnings_seq s)
       (delete (uid, gid) (user_nicknames s))).

Record legacy_stats := mk_legacy_stats {
  guilds : nat;
  warnings : nat;
  nicknames : nat
}.

Definition getStats : LM legacy_stats :=
  prepare ;;;
  fun s => (Ok (mk_legacy_stats (size (guild_settings s)) (length (user_warnings s))
                  (size (user_nicknames s))), s).

Definition close : LM unit :=
  fun s => (Ok tt, mk_ldb false (guild_settings s) (user_warnings s) (warnings_seq s)
                     (user_nicknames s)).

End LegacyDatabase.

(* ================================================================== *)
(** ** Proofs about the infraction store                               *)
(* ================================================================== *)

Module StoreProofs.
Import InfractionStore.

(** *** Strings *)

Lemma string_get_In (s : string) (i : nat) (c : ascii) :
  String.get i s = Some c -> In c (list_ascii_of_string s).
Proof.
  revert i. induction s as [|c' s IH]; intros [|i] H; simpl in *; try discriminate.
  - left. congruence.
  - right. eauto.
Qed.

Lemma string_get_lt (s : string) (i : nat) :
  (i < String.length s)%nat -> exists c, String.get i s = Some c.
Proof.
  revert i. induction s as [|c' s IH]; intros [|i] H; simpl in *; try lia.
  - eauto.
  - apply IH. lia.
Qed.

Lemma list_ascii_append (a b : string) :
  list_ascii_of_string (String.append a b) =
  app (list_ascii_of_string a) (list_ascii_of_string b).
Proof. induction a as [|c a IH]; simpl; [reflexivity | rewrite IH; reflexivity]. Qed.

Lemma string_length_append (a b : string) :
  String.length (String.append a b) = (String.length a + String.length b)%nat.
Proof. induction a as [|c a IH]; simpl; [reflexivity | rewrite IH; reflexivity]. Qed.

(** An uppercase Latin letter or a decimal digit. *)
Definition is_upper_alnum (c : ascii) : bool :=
  let n := nat_of_ascii c in
  ((65 <=? n) && (n <=? 90)) || ((48 <=? n) && (n <=? 57)).

Lemma chars_length : String.length chars = 36%nat.
Proof. reflexivity. Qed.

Lemma chars_upper_alnum :
  Forall (fun c => is_upper_alnum c = true) (list_ascii_of_string chars).
Proof. repeat constructor. Qed.

(** Draws of [Math.random()]: every value is in [0, 1). *)
Definition random_in_range (r : rng) : Prop :=
  forall n, (0 <= r n < random_denominator)%Z.

Lemma random_index_lt (k : Z) :
  (0 <= k < random_denominator)%Z -> (random_index k < 36)%nat.
Proof.
  intros Hk. unfold random_index, random_denominator in *. rewrite chars_length.
  change (Z.of_nat 36) with 36%Z.
  assert (H0 : (0 <= k * 36 / 2 ^ 53)%Z) by (apply Z.div_pos; lia).
  assert (H1 : (k * 36 / 2 ^ 53 < 36)%Z) by (apply Z.div_lt_upper_bound; lia).
  lia.
Qed.

Lemma charAt_chars (i : nat) :
  (i < 36)%nat ->
  exists c, charAt chars i = String c EmptyString /\
            is_upper_alnum c = true /\ In c (list_ascii_of_string chars).
Proof.
  intros Hi. rewrite <- chars_length in Hi.
  destruct (string_get_lt chars i Hi) as [c Hc].
  exists c. unfold charAt. rewrite Hc. split; [reflexivity|].
  pose proof (string_get_In _ _ _ Hc) as Hin. split; [|exact Hin].
  pose proof chars_upper_alnum as Hall. rewrite List.Forall_forall in Hall. auto.
Qed.

Lemma generate_loop_spec (k : nat) (r : rng) (n : nat) (acc : string) :
  random_in_range r ->
  snd (generate_loop k r n acc) = (n + k)%nat /\
  String.length (fst (generate_loop k r n acc)) = (String.length acc + k)%nat /\
  (forall c, In c (list_ascii_of_string (fst (generate_loop k r n acc))) ->
     In c (list_ascii_of_string acc) \/
     (is_upper_alnum c = true /\ In c (list_ascii_of_string chars))).
Proof.
  intros Hr. revert n acc. induction k as [|k IH]; intros n acc; simpl.
  - split; [lia|]. split; [lia|]. auto.
  - destruct (charAt_chars (random_index (r n)) (random_index_lt _ (Hr n)))
      as (c & Hc & Hup & Hin).
    rewrite Hc.
    destruct (IH (S n) (String.append acc (String c EmptyString))) as (H1 & H2 & H3).
    split; [lia|]. split.
    + rewrite H2, string_length_append. simpl. lia.
    + intros c' Hc'. destruct (H3 c' Hc') as [Hacc | Hok]; [|auto].
      rewrite list_ascii_append in Hacc. apply in_app_or in Hacc.
      destruct Hacc as [Hacc | [<- | []]]; auto.
Qed.

Lemma generateInfractionId_next (r : rng) (n : nat) :
  random_in_range r -> snd (generateInfractionId r n) = (n + 8)%nat.
Proof. intros Hr. apply (generate_loop_spec 8 r n EmptyString Hr). Qed.

(** The id shape established by [generateInfractionId]. *)
Definition well_formed_id (i : string) : Prop :=
  String.length i = 8%nat /\
  Forall (fun c => is_upper_alnum c = true /\ In c (list_ascii_of_string chars))
    (list_ascii_of_string i).

Lemma generateInfractionId_well_formed (r : rng) (n : nat) :
  random_in_range r -> well_formed_id (fst (generateInfractionId r n)).
Proof.
  intros Hr. destruct (generate_loop_spec 8 r n EmptyString Hr) as (_ & Hlen & Hin).
  split; [exact Hlen|]. apply List.Forall_forall. intros c Hc.
  destruct (Hin c Hc) as [[] | Hok]. exact Hok.
Qed.

(** *** The uniqueness check and the retry loop *)

Lemma isInfractionIdUnique_spec (rs : list row) (i : string) :
  isInfractionIdUnique rs i = true <-> ~ In i (map row_id rs).
Proof.
  unfold isInfractionIdUnique. induction rs as [|x rs IH]; simpl.
  - split; auto.
  - destruct (String.eqb (row_id x) i) eqn:E; simpl.
    + apply String.eqb_eq in E. split; [discriminate|]. intros H. exfalso. auto.
    + apply String.eqb_neq in E. rewrite IH. split.
      * intros H [H1 | H1]; auto.
      * intros H H1. auto.
Qed.

(** The [k]-th candidate drawn by the loop started at draw [n]. *)
Definition candidate (r : rng) (n k : nat) : string :=
  fst (generateInfractionId r (n + 8 * k)).

Lemma getUniqueInfractionId_returns_candidate (rs : list row) (r : rng) (n : nat)
  (i : string) (n' : nat) :
  getUniqueInfractionId rs r n i n' ->
  isInfractionIdUnique rs i = true /\ exists m, i = fst (generateInfractionId r m).
Proof.
  induction 1 as [n i n' Hg Hu | n i0 n0 i n' Hg Hu _ IH].
  - split; [exact Hu|]. exists n. rewrite Hg. reflexivity.
  - exact IH.
Qed.

Lemma getUniqueInfractionId_first_fresh (rs : list row) (r : rng) (k : nat) :
  random_in_range r ->
  forall n,
  (forall j, (j < k)%nat -> isInfractionIdUnique rs (candidate r n j) = false) ->
  isInfractionIdUnique rs (candidate r n k) = true ->
  getUniqueInfractionId rs r n (candidate r n k) (n + 8 * k + 8)%nat.
Proof.
  intros Hr. induction k as [|k IH]; intros n Hbefore Hk.
  - unfold candidate in *. rewrite Nat.add_0_r in *.
    apply unique_found; [|exact Hk].
    rewrite (surjective_pairing (generateInfractionId r n)).
    rewrite (generateInfractionId_next r n Hr). reflexivity.
  - apply (unique_retry rs r n (candidate r n 0) (n + 8)%nat).
    + unfold candidate. rewrite Nat.add_0_r.
      rewrite (surjective_pairing (generateInfractionId r n)).
      rewrite (generateInfractionId_next r n Hr). reflexivity.
    + apply Hbefore. lia.
    + assert (Hshift : forall j, candidate r (n + 8) j = candidate r n (S j)).
      { intros j. unfold candidate. replace (n + 8 * S j)%nat with (n + 8 + 8 * j)%nat by lia. reflexivity. }
      replace (n + 8 * S k + 8)%nat with (n + 8 + 8 * k + 8)%nat by lia.
      rewrite <- Hshift. apply IH.
      * intros j Hj. rewrite Hshift. apply Hbefore. lia.
      * rewrite Hshift. exact Hk.
Qed.

Lemma getUniqueInfractionId_is_first_unused (rs : list row) (r : rng) (n : nat)
  (i : string) (n' : nat) :
  random_in_range r ->
  getUniqueInfractionId rs r n i n' ->
  exists k, i = candidate r n k /\ n' = (n + 8 * k + 8)%nat /\
    (forall j, (j < k)%nat -> isInfractionIdUnique rs (candidate r n j) = false).
Proof.
  intros Hr. induction 1 as [n i n' Hg Hu | n i0 n0 i n' Hg Hu _ IH].
  - exists 0%nat. unfold candidate. rewrite Nat.add_0_r.
    pose proof (generateInfractionId_next r n Hr) as Hn. rewrite Hg in Hn. simpl in Hn.
    rewrite Hg. split; [reflexivity|]. split; [lia|]. intros j Hj. lia.
  - destruct IH as (k & -> & -> & Hbefore).
    pose proof (generateInfractionId_next r n Hr) as Hn. rewrite Hg in Hn. simpl in Hn. subst n0.
    assert (Hshift : forall j, candidate r (n + 8) j = candidate r n (S j)).
    { intros j. unfold candidate. replace (n + 8 * S j)%nat with (n + 8 + 8 * j)%nat by lia.
      reflexivity. }
    exists (S k). split; [apply Hshift|]. split; [lia|].
    intros [|j] Hj.
    + unfold candidate. rewrite Nat.add_0_r, Hg. exact Hu.
    + rewrite <- Hshift. apply Hbefore. lia.
Qed.

Lemma find_app_skip (f : row -> bool) (rs l : list row) :
  (forall x, In x rs -> f x = false) -> find f (rs ++ l) = find f l.
Proof.
  induction rs as [|x rs IH]; simpl; intros H; [reflexivity|].
  rewrite (H x (or_introl eq_refl)). apply IH. auto.
Qed.

Lemma NoDup_snoc {A} (l : list A) (x : A) :
  List.NoDup l -> ~ In x l -> List.NoDup (l ++ [x]).
Proof.
  induction l as [|y l IH]; simpl; intros Hnd Hx.
  - constructor; [intros [] | constructor].
  - inversion Hnd as [|? ? Hy Hl]; subst. constructor.
    + intros Hin. apply in_app_or in Hin. destruct Hin as [Hin | [<- | []]]; auto.
    + apply IH; auto.
Qed.

Lemma not_in_ids_find (rs : list row) (i : string) :
  ~ In i (map row_id rs) -> forall x, In x rs -> String.eqb (row_id x) i = false.
Proof.
  intros Hn x Hx. apply String.eqb_neq. intros Heq. apply Hn.
  rewrite <- Heq. apply in_map. exact Hx.
Qed.

(** *** Example inputs *)

(** [Math.random()] always returning 0. *)
Definition const_draw : rng := fun _ => 0%Z.

Lemma const_draw_in_range : random_in_range const_draw.
Proof. intros n. unfold const_draw, random_denominator. lia. Qed.

Definition open_empty : store := mk_store true [].

Definition taken_row : row := mk_row "AAAAAAAA" "u1" "g1" "m1" WARN "spam" 0%Z.

(** [Math.random()] giving index 0 ('A') for the first eight draws,
    index 1 ('B') for the next eight and index 2 ('C') afterwards: its
    first candidate is [taken_row]'s id, then come "BBBBBBBB" and
    "CCCCCCCC". *)
Definition collide_then_b : rng :=
  fun m => if (m <? 8)%nat then 0%Z
           else if (m <? 16)%nat then 250199979298361%Z
           else 500399958596722%Z.

Lemma collide_then_b_in_range : random_in_range collide_then_b.
Proof.
  intros m. unfold collide_then_b, random_denominator.
  destruct (m <? 8)%nat; [lia|]. destruct (m <? 16)%nat; lia.
Qed.

Lemma collide_then_b_unique :
  getUniqueInfractionId [taken_row] collide_then_b 0 "BBBBBBBB" 16.
Proof.
  apply (unique_retry _ _ 0 "AAAAAAAA" 8); [reflexivity | reflexivity |].
  apply unique_found; reflexivity.
Qed.

Definition taken_store : store := mk_store true [taken_row].

Lemma collide_then_b_add (now : Z) (uid gid mid : string) (t : InfractionType) (rsn : string) :
  addInfraction taken_store collide_then_b 0 now uid gid mid t rsn (Ok "BBBBBBBB")
    (mk_store true [taken_row; mk_row "BBBBBBBB" uid gid mid t rsn now]) 16.
Proof.
  apply (add_ok taken_store collide_then_b 0 now uid gid mid t rsn "BBBBBBBB" 16).
  - reflexivity.
  - exact collide_then_b_unique.
Qed.

Lemma const_draw_candidate (n : nat) :
  generateInfractionId const_draw n = ("AAAAAAAA", (8 + n)%nat).
Proof. reflexivity. Qed.

Lemma const_draw_never_fresh (n : nat) (i : string) (n' : nat) :
  ~ getUniqueInfractionId [taken_row] const_draw n i n'.
Proof.
  intros H. induction H as [n i n' Hg Hu | n i0 n0 i n' Hg Hu _ IH]; [|exact IH].
  rewrite const_draw_candidate in Hg. injection Hg as <- <-.
  discriminate Hu.
Qed.

(** *** Claims on id generation and [addInfraction] *)

(** C10: for every call, [generateInfractionId] returns 8 characters, each
    an uppercase letter A-Z or a digit 0-9 taken from the 36-character
    alphabet [chars] (no lowercase letters), provided [Math.random()]
    returns values in [0, 1). *)
Theorem generateInfractionId_uppercase_alnum (r : rng) (n : nat) :
  random_in_range r ->
  String.length chars = 36%nat /\
  String.length (fst (generateInfractionId r n)) = 8%nat /\
  Forall (fun c => is_upper_alnum c = true /\ In c (list_ascii_of_string chars))
    (list_ascii_of_string (fst (generateInfractionId r n))).
Proof.
  intros Hr. destruct (generateInfractionId_well_formed r n Hr) as [Hlen Hall].
  split; [exact chars_length|]. split; assumption.
Qed.

Lemma generateInfractionId_uppercase_alnum_witness :
  random_in_range const_draw /\
  String.length chars = 36%nat /\
  String.length (fst (generateInfractionId const_draw 0)) = 8%nat /\
  Forall (fun c => is_upper_alnum c = true /\ In c (list_ascii_of_string chars))
    (list_ascii_of_string (fst (generateInfractionId const_draw 0))).
Proof.
  split; [exact const_draw_in_range|].
  apply (generateInfractionId_uppercase_alnum const_draw 0 const_draw_in_range).
Defined.

(** C2 as stated: whenever some well-formed 8-character id is unused, the
    regenerate loop terminates. *)
Lemma getUniqueInfractionId_termination_counterexample :
  ~ (forall (rs : list row) (r : rng) (n : nat),
       random_in_range r ->
       (exists i, well_formed_id i /\ ~ In i (map row_id rs)) ->
       exists i n', getUniqueInfractionId rs r n i n').
Proof.
  intros H.
  assert (Hfree : exists i, well_formed_id i /\ ~ In i (map row_id [taken_row])).
  { exists "AAAAAAAB". split.
    - split; [reflexivity|]. apply List.Forall_forall. intros c Hc. simpl in Hc.
      repeat (destruct Hc as [<- | Hc]; [split; [reflexivity | simpl; auto 40] |]).
      destruct Hc.
    - simpl. intros [Heq | []]. discriminate Heq. }
  destruct (H [taken_row] const_draw 0%nat const_draw_in_range Hfree) as (i & n' & Hl).
  exact (const_draw_never_fresh 0 i n' Hl).
Qed.

(** C2 (amended): every result of the loop is the first unused
    candidate the draws produce: all candidates drawn before it are ids
    already in the store, it is absent from the store, and it is a
    well-formed 8-character id over [chars]. Conversely the first unused
    candidate is returned, so the loop terminates exactly when the draws
    eventually produce one; and on an open store [addInfraction] never
    reports a collision as an error. *)
Theorem getUniqueInfractionId_first_unused_candidate (rs : list row) (r : rng) (n : nat) :
  random_in_range r ->
  (forall i n', getUniqueInfractionId rs r n i n' ->
     exists k, i = candidate r n k /\ n' = (n + 8 * k + 8)%nat /\
       (forall j, (j < k)%nat -> In (candidate r n j) (map row_id rs)) /\
       ~ In i (map row_id rs) /\ well_formed_id i) /\
  (forall k, (forall j, (j < k)%nat -> In (candidate r n j) (map row_id rs)) ->
     ~ In (candidate r n k) (map row_id rs) ->
     getUniqueInfractionId rs r n (candidate r n k) (n + 8 * k + 8)%nat) /\
  (forall st now uid gid mid t rsn res st' n',
     rows st = rs -> db_open st = true ->
     addInfraction st r n now uid gid mid t rsn res st' n' ->
     exists i, res = Ok i).
Proof.
  intros Hr. split; [|split].
  - intros i n' Hl.
    destruct (getUniqueInfractionId_is_first_unused rs r n i n' Hr Hl) as (k & Hi & Hn' & Hb).
    destruct (getUniqueInfractionId_returns_candidate rs r n i n' Hl) as [Hu [m ->]].
    exists k. split; [exact Hi|]. split; [exact Hn'|]. split; [|split].
    + intros j Hj. specialize (Hb j Hj).
      destruct (in_dec string_dec (candidate r n j) (map row_id rs)) as [Hin|Hnin];
        [exact Hin|].
      apply isInfractionIdUnique_spec in Hnin. congruence.
    + apply isInfractionIdUnique_spec. exact Hu.
    + apply generateInfractionId_well_formed. exact Hr.
  - intros k Hbefore Hk. apply getUniqueInfractionId_first_fresh; [exact Hr| |].
    + intros j Hj. destruct (isInfractionIdUnique rs (candidate r n j)) eqn:E; [|reflexivity].
      apply isInfractionIdUnique_spec in E. exfalso. apply E. apply Hbefore. exact Hj.
    + apply isInfractionIdUnique_spec. exact Hk.
  - intros st now uid gid mid t rsn res st' n' _ Hopen Hadd.
    inversion Hadd; subst; [eauto | congruence].
Qed.

Lemma getUniqueInfractionId_first_unused_candidate_witness :
  random_in_range collide_then_b /\
  getUniqueInfractionId [taken_row] collide_then_b 0 (candidate collide_then_b 0 1) 16 /\
  candidate collide_then_b 0 1 = "BBBBBBBB" /\
  In (candidate collide_then_b 0 0) (map row_id [taken_row]) /\
  exists k, candidate collide_then_b 0 1 = candidate collide_then_b 0 k /\
    16%nat = (0 + 8 * k + 8)%nat /\
    (forall j, (j < k)%nat -> In (candidate collide_then_b 0 j) (map row_id [taken_row])) /\
    ~ In (candidate collide_then_b 0 1) (map row_id [taken_row]) /\
    well_formed_id (candidate collide_then_b 0 1).
Proof.
  destruct (getUniqueInfractionId_first_unused_candidate [taken_row] collide_then_b 0
              collide_then_b_in_range) as (Hres & Hfirst & _).
  assert (H0 : In (candidate collide_then_b 0 0) (map row_id [taken_row]))
    by (vm_compute; left; reflexivity).
  assert (Hl : getUniqueInfractionId [taken_row] collide_then_b 0
                 (candidate collide_then_b 0 1) 16).
  { apply (Hfirst 1%nat).
    - intros j Hj. replace j with 0%nat by lia. exact H0.
    - vm_compute. intros [Heq | []]. discriminate Heq. }
  split; [exact collide_then_b_in_range|]. split; [exact Hl|].
  split; [vm_compute; reflexivity|]. split; [exact H0|].
  exact (Hres _ _ Hl).
Defined.

(** C1: a successful [addInfraction] returns an id that no stored row had
    (so ids stay pairwise distinct), and [getInfractionById] on that id
    returns the inputs exactly. *)
Theorem addInfraction_fresh_id_readback (st : store) (r : rng) (n : nat) (now : Z)
  (uid gid mid : string) (t : InfractionType) (rsn i : string) (st' : store) (n' : nat) :
  addInfraction st r n now uid gid mid t rsn (Ok i) st' n' ->
  ~ In i (map row_id (rows st)) /\
  (List.NoDup (map row_id (rows st)) -> List.NoDup (map row_id (rows st'))) /\
  getInfractionById st' i = Ok (Some (mk_infraction i uid gid mid t rsn now)).
Proof.
  intros Hadd. inversion Hadd as [i' n'' Hopen Hl Heq1 Heq2 Heq3 |]; subst.
  destruct (getUniqueInfractionId_returns_candidate _ _ _ _ _ Hl) as [Hu _].
  apply isInfractionIdUnique_spec in Hu.
  split; [exact Hu|]. split.
  - intros Hnd. simpl. rewrite map_app. apply NoDup_snoc; assumption.
  - unfold getInfractionById. simpl.
    rewrite find_app_skip by (apply not_in_ids_find; exact Hu).
    simpl. rewrite String.eqb_refl. reflexivity.
Qed.

Lemma addInfraction_fresh_id_readback_witness :
  addInfraction taken_store collide_then_b 0 5%Z "u2" "g1" "m1" WARN "spam"
    (Ok "BBBBBBBB")
    (mk_store true [taken_row; mk_row "BBBBBBBB" "u2" "g1" "m1" WARN "spam" 5%Z]) 16 /\
  In "AAAAAAAA" (map row_id (rows taken_store)) /\
  ~ In "BBBBBBBB" (map row_id (rows taken_store)) /\
  (List.NoDup (map row_id (rows taken_store)) ->
   List.NoDup (map row_id [taken_row; mk_row "BBBBBBBB" "u2" "g1" "m1" WARN "spam" 5%Z])) /\
  getInfractionById (mk_store true [taken_row; mk_row "BBBBBBBB" "u2" "g1" "m1" WARN "spam" 5%Z])
    "BBBBBBBB" = Ok (Some (mk_infraction "BBBBBBBB" "u2" "g1" "m1" WARN "spam" 5%Z)).
Proof.
  pose proof (collide_then_b_add 5%Z "u2" "g1" "m1" WARN "spam") as H.
  split; [exact H|]. split; [left; reflexivity|].
  exact (addInfraction_fresh_id_readback _ _ _ _ _ _ _ _ _ _ _ _ H).
Defined.

(** *** Queries *)

Lemma insert_desc_perm (x : row) (l : list row) : Permutation (x :: l) (insert_desc x l).
Proof.
  induction l as [|y l IH]; simpl; [reflexivity|].
  destruct (Z.leb (created_at y) (created_at x)); [reflexivity|].
  rewrite perm_swap. constructor. exact IH.
Qed.

Lemma sort_created_desc_perm (l : list row) : Permutation l (sort_created_desc l).
Proof.
  induction l as [|x l IH]; simpl; [reflexivity|].
  rewrite <- insert_desc_perm. constructor. exact IH.
Qed.

Definition created_desc (a b : row) : Prop := (created_at b <= created_at a)%Z.

Lemma insert_desc_hdrel (x y : row) (l : list row) :
  HdRel created_desc y l -> created_desc y x -> HdRel created_desc y (insert_desc x l).
Proof.
  intros Hy Hyx. destruct l as [|z l]; simpl.
  - constructor. exact Hyx.
  - destruct (Z.leb (created_at z) (created_at x)); constructor; [exact Hyx|].
    inversion Hy; assumption.
Qed.

Lemma insert_desc_sorted (x : row) (l : list row) :
  Sorted created_desc l -> Sorted created_desc (insert_desc x l).
Proof.
  induction l as [|y l IH]; simpl; intros Hs.
  - repeat constructor.
  - destruct (Z.leb (created_at y) (created_at x)) eqn:E.
    + apply Z.leb_le in E. constructor; [exact Hs|]. constructor. exact E.
    + apply Z.leb_gt in E. inversion Hs as [|? ? Hl Hhd]; subst.
      constructor; [apply IH; exact Hl|].
      apply insert_desc_hdrel; [exact Hhd|]. unfold created_desc. lia.
Qed.

Lemma sort_created_desc_sorted (l : list row) : Sorted created_desc (sort_created_desc l).
Proof.
  induction l as [|x l IH]; simpl; [constructor|]. apply insert_desc_sorted. exact IH.
Qed.

(** The stable sort is one of the results SQL may return. *)
Lemma getUserInfractions_eval_admissible (st : store) (uid gid : string)
  (t : option InfractionType) :
  getUserInfractions st uid gid t (getUserInfractions_eval st uid gid t).
Proof.
  unfold getUserInfractions, getUserInfractions_eval.
  destruct (db_open st) eqn:E; [|split; reflexivity].
  split; [reflexivity|]. eexists. split; [|reflexivity]. split.
  - apply sort_created_desc_perm.
  - apply sort_created_desc_sorted.
Qed.

Lemma Sorted_map_created (l : list row) :
  Sorted created_desc l ->
  Sorted (fun a b => (createdAt b <= createdAt a)%Z) (map row_to_infraction l).
Proof.
  induction 1 as [|x l Hs IH Hhd]; simpl; constructor; [exact IH|].
  destruct Hhd; simpl; constructor. exact H.
Qed.

Lemma in_scope_iff (st : store) (uid gid : string) (t : option InfractionType) (x : Infraction) :
  In x (map row_to_infraction (List.filter (matches_scope uid gid t) (rows st))) <->
  exists rw, In rw (rows st) /\ matches_scope uid gid t rw = true /\ x = row_to_infraction rw.
Proof.
  rewrite in_map_iff. split.
  - intros (rw & <- & Hin). apply filter_In in Hin. destruct Hin. eauto.
  - intros (rw & Hin & Hm & ->). exists rw. split; [reflexivity|]. apply filter_In. auto.
Qed.

(** The property that rows with equal [createdAt] come newest insert first. *)
Fixpoint position (rs : list row) (i : string) : option nat :=
  match rs with
  | [] => None
  | x :: rs' => if String.eqb (row_id x) i then Some 0%nat
                else option_map S (position rs' i)
  end.

Definition ties_newest_first (rs : list row) (res : list Infraction) : Prop :=
  forall i j a b, (i < j)%nat -> nth_error res i = Some a -> nth_error res j = Some b ->
    createdAt a = createdAt b ->
    exists pa pb, position rs (id a) = Some pa /\ position rs (id b) = Some pb /\ (pb < pa)%nat.

Definition tie_row1 : row := mk_row "AAAAAAAA" "u1" "g1" "m1" WARN "spam" 100%Z.
Definition tie_row2 : row := mk_row "BBBBBBBB" "u1" "g1" "m1" WARN "flood" 100%Z.
Definition tie_store : store := mk_store true [tie_row1; tie_row2].

Lemma tie_store_oldest_first :
  getUserInfractions tie_store "u1" "g1" None
    (Ok [row_to_infraction tie_row1; row_to_infraction tie_row2]).
Proof.
  split; [reflexivity|]. exists [tie_row1; tie_row2]. split; [|reflexivity]. split.
  - reflexivity.
  - repeat constructor; unfold created_desc; simpl; lia.
Qed.

(** C3 as stated: exact contents, [createdAt] descending, and equal
    [createdAt] in reverse insertion order. *)
Lemma getUserInfractions_tie_order_counterexample :
  ~ (forall st uid gid t res,
       getUserInfractions st uid gid t (Ok res) ->
       (forall x, In x res <-> exists rw, In rw (rows st) /\
                    matches_scope uid gid t rw = true /\ x = row_to_infraction rw) /\
       Sorted (fun a b => (createdAt b <= createdAt a)%Z) res /\
       ties_newest_first (rows st) res).
Proof.
  intros H.
  destruct (H _ _ _ _ _ tie_store_oldest_first) as (_ & _ & Hties).
  destruct (Hties 0 1 (row_to_infraction tie_row1) (row_to_infraction tie_row2))
    as (pa & pb & Ha & Hb & Hlt); try reflexivity; [lia|].
  simpl in Ha, Hb. injection Ha as <-. injection Hb as <-. lia.
Qed.

(** C3 (amended): any result of [getUserInfractions] holds exactly the
    stored rows of the scope (and of the type when given), each as often
    as it is stored, ordered by [createdAt] descending; the order among
    rows with equal [createdAt] is not fixed by the query. *)
Theorem getUserInfractions_scope_and_order (st : store) (uid gid : string)
  (t : option InfractionType) (res : list Infraction) :
  getUserInfractions st uid gid t (Ok res) ->
  (forall x, In x res <-> exists rw, In rw (rows st) /\
               matches_scope uid gid t rw = true /\ x = row_to_infraction rw) /\
  Permutation (map row_to_infraction (List.filter (matches_scope uid gid t) (rows st))) res /\
  Sorted (fun a b => (createdAt b <= createdAt a)%Z) res.
Proof.
  intros [_ (out & [Hperm Hsorted] & ->)].
  assert (Hp : Permutation (map row_to_infraction (List.filter (matches_scope uid gid t) (rows st)))
                           (map row_to_infraction out))
    by (apply Permutation_map; exact Hperm).
  split; [|split; [exact Hp | apply Sorted_map_created; exact Hsorted]].
  intros x. rewrite <- in_scope_iff. split; apply Permutation_in.
  - apply Permutation_sym. exact Hp.
  - exact Hp.
Qed.

Lemma getUserInfractions_scope_and_order_witness :
  getUserInfractions tie_store "u1" "g1" None
    (Ok [row_to_infraction tie_row1; row_to_infraction tie_row2]) /\
  Sorted (fun a b => (createdAt b <= createdAt a)%Z)
    [row_to_infraction tie_row1; row_to_infraction tie_row2].
Proof.
  split; [exact tie_store_oldest_first|].
  apply (getUserInfractions_scope_and_order tie_store "u1" "g1" None _ tie_store_oldest_first).
Defined.

(** C4: on the same store contents and with the same optional type filter,
    [getInfractionCount] is the length of any result of
    [getUserInfractions] (and both throw on a closed store). *)
Theorem getInfractionCount_length (st : store) (uid gid : string)
  (t : option InfractionType) (res : result (list Infraction)) :
  getUserInfractions st uid gid t res ->
  getInfractionCount st uid gid t =
    match res with Ok l => Ok (length l) | Throw e => Throw e end.
Proof.
  unfold getUserInfractions, getInfractionCount. destruct res as [l | e].
  - intros [Hopen (out & [Hperm _] & ->)]. rewrite Hopen, length_map.
    f_equal. apply Permutation_length. exact Hperm.
  - intros [Hclosed ->]. rewrite Hclosed. reflexivity.
Qed.

Lemma getInfractionCount_length_witness :
  getUserInfractions tie_store "u1" "g1" None
    (Ok [row_to_infraction tie_row1; row_to_infraction tie_row2]) /\
  getInfractionCount tie_store "u1" "g1" None = Ok 2%nat.
Proof.
  split; [exact tie_store_oldest_first|].
  exact (getInfractionCount_length tie_store "u1" "g1" None _ tie_store_oldest_first).
Defined.

(** *** The table is append-only *)

Lemma store_step_appends (r : rng) (st : store) (n : nat) (op : store_op) (st' : store) (n' : nat) :
  store_step r st n op st' n' ->
  (exists extra, rows st' = rows st ++ extra) /\
  (List.NoDup (map row_id (rows st)) -> List.NoDup (map row_id (rows st'))).
Proof.
  assert (Hadd : forall now uid gid mid t rsn res st1 n1,
            addInfraction st r n now uid gid mid t rsn res st1 n1 ->
            (exists extra, rows st1 = rows st ++ extra) /\
            (List.NoDup (map row_id (rows st)) -> List.NoDup (map row_id (rows st1)))).
  { intros now uid gid mid t rsn res st1 n1 H.
    inversion H as [i n'' Hopen Hl | Hclosed]; subst.
    - split; [eexists; reflexivity|].
      destruct (getUniqueInfractionId_returns_candidate _ _ _ _ _ Hl) as [Hu _].
      apply isInfractionIdUnique_spec in Hu.
      intros Hnd. simpl. rewrite map_app. apply NoDup_snoc; assumption.
    - split; [exists []; rewrite app_nil_r; reflexivity | auto]. }
  destruct 1; try (split; [exists []; rewrite app_nil_r; reflexivity | auto]).
  - eapply Hadd. eassumption.
  - eapply Hadd. eassumption.
Qed.

Lemma store_steps_appends (r : rng) (st : store) (n : nat) (ops : list store_op)
  (st' : store) (n' : nat) :
  store_steps r st n ops st' n' ->
  (exists extra, rows st' = rows st ++ extra) /\
  (List.NoDup (map row_id (rows st)) -> List.NoDup (map row_id (rows st'))).
Proof.
  induction 1 as [st n | st n op ops st1 n1 st2 n2 Hstep _ IH].
  - split; [exists []; rewrite app_nil_r; reflexivity | auto].
  - destruct (store_step_appends _ _ _ _ _ _ Hstep) as [[e1 H1] N1].
    destruct IH as [[e2 H2] N2]. split.
    + exists (e1 ++ e2). rewrite H2, H1, app_assoc. reflexivity.
    + auto.
Qed.

Lemma find_unique_id (l : list row) (rw : row) :
  List.NoDup (map row_id l) -> In rw l ->
  find (fun x => String.eqb (row_id x) (row_id rw)) l = Some rw.
Proof.
  induction l as [|x l IH]; simpl; intros Hnd Hin; [destruct Hin|].
  inversion Hnd as [|? ? Hx Hl]; subst.
  destruct (String.eqb (row_id x) (row_id rw)) eqn:E.
  - apply String.eqb_eq in E. destruct Hin as [-> | Hin]; [reflexivity|].
    exfalso. apply Hx. rewrite E. apply in_map. exact Hin.
  - destruct Hin as [-> | Hin].
    + rewrite String.eqb_refl in E. discriminate.
    + apply IH; assumption.
Qed.

Lemma matches_own_scope (rw : row) (t : option InfractionType) :
  (t = None \/ t = Some (row_type rw)) ->
  matches_scope (user_id rw) (guild_id rw) t rw = true.
Proof.
  intros Ht. unfold matches_scope. rewrite !String.eqb_refl. simpl.
  destruct Ht as [-> | ->]; [reflexivity|]. apply bool_decide_eq_true. reflexivity.
Qed.

Definition closed_after_one_row : store := close (mk_store true [taken_row]).

(** C8 as stated: after any sequence of store operations, every row stored
    before is still returned by [getInfractionById] and by the matching
    [getUserInfractions] query. *)
Lemma store_rows_readable_counterexample :
  ~ (forall r st n ops st' n',
       db_open st = true ->
       List.NoDup (map row_id (rows st)) ->
       store_steps r st n ops st' n' ->
       forall rw, In rw (rows st) ->
         getInfractionById st' (row_id rw) = Ok (Some (row_to_infraction rw))).
Proof.
  intros H.
  assert (Hsteps : store_steps const_draw (mk_store true [taken_row]) 0 [OpClose]
                     closed_after_one_row 0).
  { econstructor; [apply step_close | constructor]. }
  assert (Hnd : List.NoDup (map row_id (rows (mk_store true [taken_row]))))
    by (repeat constructor; intros []).
  specialize (H const_draw (mk_store true [taken_row]) 0 [OpClose] closed_after_one_row 0
                eq_refl Hnd Hsteps taken_row (or_introl eq_refl)).
  discriminate H.
Qed.

(** C8 (amended): no store operation changes or removes a stored row:
    after any sequence of operations the table is the old one with rows
    appended, ids stay distinct, and while the connection is still open
    (no [close] so far) every earlier row is returned unchanged by
    [getInfractionById] and appears in every result of the matching
    [getUserInfractions] query. After [close] the rows stay in place but
    every query throws. *)
Theorem store_append_only (r : rng) (st : store) (n : nat) (ops : list store_op)
  (st' : store) (n' : nat) :
  List.NoDup (map row_id (rows st)) ->
  store_steps r st n ops st' n' ->
  (exists extra, rows st' = rows st ++ extra) /\
  List.NoDup (map row_id (rows st')) /\
  (db_open st' = true ->
   forall rw, In rw (rows st) ->
     getInfractionById st' (row_id rw) = Ok (Some (row_to_infraction rw)) /\
     (forall t res, (t = None \/ t = Some (row_type rw)) ->
        getUserInfractions st' (user_id rw) (guild_id rw) t (Ok res) ->
        In (row_to_infraction rw) res)) /\
  (db_open st' = false ->
   forall i, getInfractionById st' i = Throw DatabaseNotOpen).
Proof.
  intros Hnd Hsteps.
  destruct (store_steps_appends _ _ _ _ _ _ Hsteps) as [[extra Hext] Hnd'].
  specialize (Hnd' Hnd).
  split; [eauto|]. split; [exact Hnd'|]. split.
  - intros Hopen rw Hin.
    assert (Hin' : In rw (rows st')) by (rewrite Hext; apply in_or_app; left; exact Hin).
    split.
    + unfold getInfractionById. rewrite Hopen, (find_unique_id _ _ Hnd' Hin'). reflexivity.
    + intros t res Ht [_ (out & [Hperm _] & ->)].
      apply in_map. apply (Permutation_in _ Hperm).
      apply filter_In. split; [exact Hin' | apply matches_own_scope; exact Ht].
  - intros Hclosed i. unfold getInfractionById. rewrite Hclosed. reflexivity.
Qed.

Definition appended_store : store :=
  mk_store true [taken_row; mk_row "BBBBBBBB" "u2" "g1" "m1" WARN "rude" 5%Z].

Lemma store_append_only_witness :
  List.NoDup (map row_id (rows taken_store)) /\
  store_steps collide_then_b taken_store 0
    [OpAddWarning "u2" "g1" "m1" "rude"; OpGetInfractionCount "u1" "g1" None]
    appended_store 16 /\
  rows appended_store = rows taken_store ++ [mk_row "BBBBBBBB" "u2" "g1" "m1" WARN "rude" 5%Z] /\
  getInfractionById appended_store "AAAAAAAA" = Ok (Some (row_to_infraction taken_row)) /\
  List.NoDup (map row_id (rows appended_store)).
Proof.
  assert (Hnd : List.NoDup (map row_id (rows taken_store)))
    by (repeat constructor; intros []).
  assert (Hs : store_steps collide_then_b taken_store 0
                 [OpAddWarning "u2" "g1" "m1" "rude"; OpGetInfractionCount "u1" "g1" None]
                 appended_store 16).
  { econstructor.
    - apply (step_add_warning collide_then_b taken_store 0 5%Z "u2" "g1" "m1" "rude"
               (Ok "BBBBBBBB")).
      apply collide_then_b_add.
    - econstructor; [apply step_count | constructor]. }
  split; [exact Hnd|]. split; [exact Hs|]. split; [reflexivity|].
  destruct (store_append_only _ _ _ _ _ _ Hnd Hs) as (_ & Hnd' & Hopen & _).
  split; [exact (proj1 (Hopen eq_refl taken_row (or_introl eq_refl)))|].
  exact Hnd'.
Defined.

End StoreProofs.

(* ================================================================== *)
(** ** Proofs about the dispatcher                                     *)
(* ================================================================== *)

Module DispatcherProofs.
Import Dispatcher.

(** No handler takes the interaction's key: an unknown command name, a
    button other than the inline [ping_refresh] case, any select menu or
    modal (none has a case), or an interaction of another kind. *)
Definition unrouted (cmds : commands) (i : interaction) : Prop :=
  match kind i with
  | ChatInputCommand => cmds !! key i = None
  | ButtonPress => key i <> "ping_refresh"
  | StringSelectMenu | ModalSubmit | OtherInteraction => True
  end.

Definition not_found_message (name : string) : string :=
  String.append "Command `" (String.append name "` not found.").

Definition message_content (m : sent_message) : string :=
  match m with Reply c | FollowUp c => c end.

Definition no_commands : commands := ∅.

Definition context_menu_call : interaction :=
  mk_interaction OtherInteraction "unknown" "mod#0001" false false true.

Definition unknown_slash_call : interaction :=
  mk_interaction ChatInputCommand "unknown" "mod#0001" false false true.

(** C5 as stated: every unrouted interaction completes normally, leaves a
    log entry for the miss, and a command gets a not-found message while
    other kinds get nothing sent. *)
Lemma execute_unrouted_counterexample :
  ~ (forall cmds i s, unrouted cmds i ->
       fst (execute cmds i s) = Normal tt /\
       logs (snd (execute cmds i s)) <> logs s /\
       (kind i = ChatInputCommand ->
          exists m, sent (snd (execute cmds i s)) = sent s ++ [m] /\
                    message_content m = not_found_message (key i)) /\
       (kind i <> ChatInputCommand -> sent (snd (execute cmds i s)) = sent s)).
Proof.
  intros H. destruct (H no_commands context_menu_call empty_dstate I) as (_ & Hlog & _).
  apply Hlog. reflexivity.
Qed.

(** C5 (amended): an unrouted interaction never makes [execute] complete
    abruptly. A slash command logs the miss with console.warn and then
    attempts the not-found message (a follow-up if the interaction was
    already replied to or deferred, a reply otherwise); a refused send is
    caught and logged. A button, select menu or modal only logs. Any other
    kind of interaction is dropped without log or message. *)
Theorem execute_unrouted (cmds : commands) (i : interaction) (s : dstate) :
  unrouted cmds i ->
  fst (execute cmds i s) = Normal tt /\
  match kind i with
  | ChatInputCommand =>
      logs (snd (execute cmds i s)) =
        logs s ++ [WarnLine (String.append "Unknown command: " (key i))] ++
        (if platform_accepts i then []
         else [ErrorLine "Failed to reply with error:" (ThrownRuntime ReplyFailed)]) /\
      sent (snd (execute cmds i s)) =
        sent s ++ (if platform_accepts i then
                     [if replied i || deferred i then FollowUp (not_found_message (key i))
                      else Reply (not_found_message (key i))]
                   else [])
  | ButtonPress =>
      logs (snd (execute cmds i s)) =
        logs s ++ [LogLine (String.append "Button: " (String.append (key i)
                              (String.append " by " (user_tag i))));
                   InfoLine (String.append "Unhandled button: " (key i))] /\
      sent (snd (execute cmds i s)) = sent s
  | StringSelectMenu =>
      logs (snd (execute cmds i s)) =
        logs s ++ [LogLine (String.append "Select Menu: " (String.append (key i)
                              (String.append " by " (user_tag i))));
                   InfoLine (String.append "Unhandled select menu: " (key i))] /\
      sent (snd (execute cmds i s)) = sent s
  | ModalSubmit =>
      logs (snd (execute cmds i s)) =
        logs s ++ [LogLine (String.append "Modal: " (String.append (key i)
                              (String.append " by " (user_tag i))));
                   InfoLine (String.append "Unhandled modal: " (key i))] /\
      sent (snd (execute cmds i s)) = sent s
  | OtherInteraction => snd (execute cmds i s) = s
  end.
Proof.
  destruct i as [k name tag rep def acc], s as [ls ss]. unfold unrouted.
  cbn [kind key]. destruct k; intros Hu.
  - unfold execute. cbn [kind]. unfold handleChatInputCommand. cbn [key]. cbv zeta.
    assert (Hu' : @lookup string (interaction -> command_run) (gmap string command) _
                    name cmds = None) by exact Hu.
    rewrite Hu'. unfold try_catch, bind, console, sendErrorResponse, send. simpl.
    destruct acc, rep, def; simpl;
      (split; [reflexivity | split; rewrite ?app_nil_r, <- ?app_assoc; reflexivity]).
  - unfold execute, handleButtonInteraction, try_catch, bind, console, ret. simpl.
    apply String.eqb_neq in Hu. rewrite Hu. simpl. rewrite <- app_assoc. auto.
  - unfold execute, handleSelectMenuInteraction, try_catch, bind, console. simpl.
    rewrite <- app_assoc. auto.
  - unfold execute, handleModalInteraction, try_catch, bind, console. simpl.
    rewrite <- app_assoc. auto.
  - unfold execute, try_catch, ret. simpl. auto.
Qed.

Lemma execute_unrouted_witness :
  unrouted no_commands unknown_slash_call /\
  fst (execute no_commands unknown_slash_call empty_dstate) = Normal tt /\
  sent (snd (execute no_commands unknown_slash_call empty_dstate)) =
    [Reply (not_found_message "unknown")].
Proof.
  assert (Hu : unrouted no_commands unknown_slash_call) by reflexivity.
  split; [exact Hu|].
  destruct (execute_unrouted no_commands unknown_slash_call empty_dstate Hu) as [Hn [_ Hs]].
  split; [exact Hn | exact Hs].
Defined.

Definition generic_failure_message : string :=
  "Something went wrong while executing the command.".

(** Sibling path: when the handler throws an Error or a primitive value,
    the failure is logged with the command name and the generic notice is
    attempted; a refused notice is caught. *)
Lemma execute_handler_failure_notice (cmds : commands) (i : interaction) (cmd : command)
  (v : thrown) (s : dstate) :
  kind i = ChatInputCommand -> cmds !! key i = Some cmd ->
  run_outcome (cmd i) = Some v -> v <> ThrownUnconvertible ->
  fst (execute cmds i s) = Normal tt /\
  In (ErrorLine (String.append "Error in command " (String.append (key i) ":")) v)
     (logs (snd (execute cmds i s))) /\
  sent (snd (execute cmds i s)) =
    sent s ++ (if platform_accepts i then
                 [if run_replied (cmd i) || run_deferred (cmd i)
                  then FollowUp generic_failure_message
                  else Reply generic_failure_message]
               else []).
Proof.
  intros Hk Hl Hrun Hv. unfold execute. rewrite Hk. unfold handleChatInputCommand. cbv zeta.
  assert (Hl' : @lookup string (interaction -> command_run) (gmap string command) _
                  (key i) cmds = Some cmd) by exact Hl.
  rewrite Hl'. unfold try_catch, bind, console. rewrite Hrun. unfold raise. cbn.
  destruct v as [e | msg | str |]; [| | | congruence]; cbn;
    unfold sendErrorResponse, try_catch, send, console, after_run; cbn;
    destruct (platform_accepts i), (run_replied (cmd i)), (run_deferred (cmd i)); cbn;
    (split; [reflexivity|]); rewrite ?app_nil_r;
    (split; [rewrite ?in_app_iff; simpl; intuition |
             rewrite <- ?app_assoc; reflexivity]).
Qed.

Definition failing_command : command :=
  fun _ => mk_run false false 0 (Some ThrownUnconvertible).

Definition registry_with_failing_warn : commands := <["warn" := failing_command]> ∅.

Definition warn_call : interaction :=
  mk_interaction ChatInputCommand "warn" "mod#0001" false false true.

(** C6 at the failing input: [/warn] whose handler throws a value that
    [String(err)] cannot convert (such as [Object.create(null)]), followed
    by an unrelated unknown command. Nothing escapes and the next event is
    handled, but no failure notice is sent for [/warn]: the TypeError from
    [String(err)] reaches the outer [catch] of [execute]. *)
Lemma execute_unconvertible_throw_sends_no_notice :
  execute_all registry_with_failing_warn [warn_call; unknown_slash_call] empty_dstate =
  (Normal tt,
   mk_dstate
     [LogLine "Running /warn by mod#0001";
      ErrorLine "Error in command warn:" ThrownUnconvertible;
      ErrorLine "Unexpected interaction handling error:"
        (ThrownRuntime (TypeError "Cannot convert object to primitive value"));
      WarnLine "Unknown command: unknown"]
     [Reply "Command `unknown` not found."]).
Proof. vm_compute. reflexivity. Qed.

End DispatcherProofs.

(* ================================================================== *)
(** ** Proofs about startup discovery                                  *)
(* ================================================================== *)

Module LoaderProofs.
Import Loader.

(** C7: setting a key that is already registered replaces its entry: a
    later lookup of the key returns the last entry only, the collection
    does not grow, and the other keys keep their entries. *)
Theorem collection_set_last_wins {V} (m : gmap string V) (k : string) (e1 e2 : V) :
  collection_get k m = Some e1 ->
  collection_get k (collection_set k e2 m) = Some e2 /\
  size (collection_set k e2 m) = size m /\
  (forall k', k' <> k -> collection_get k' (collection_set k e2 m) = collection_get k' m).
Proof.
  unfold collection_get, collection_set. intros H. split; [|split].
  - apply lookup_insert_eq.
  - apply map_size_insert_Some. exists e1. exact H.
  - intros k' Hk. apply lookup_insert_ne. congruence.
Qed.

Definition first_warn : default_export := ExportObject (Some "warn") None true.
Definition second_warn : default_export := ExportObject (Some "warn") (Some "v2") true.

Lemma collection_set_last_wins_witness :
  collection_get "warn" (collection_set "warn" first_warn ∅) = Some first_warn /\
  collection_get "warn" (collection_set "warn" second_warn (collection_set "warn" first_warn ∅))
    = Some second_warn.
Proof.
  assert (H : collection_get "warn" (collection_set "warn" first_warn ∅) = Some first_warn)
    by reflexivity.
  split; [exact H|].
  exact (proj1 (collection_set_last_wins _ "warn" first_warn second_warn H)).
Defined.

(** The same through [loadCommands]: two command files named [warn]; the
    one loaded last is the registered one. *)
Lemma loadCommands_two_warn_files :
  collection_get "warn"
    (commands (snd (loadCommands
       (Some [("moderation", [mk_candidate "commands/moderation/warn.ts" (Some first_warn);
                              mk_candidate "commands/moderation/warn2.ts" (Some second_warn)])])
       empty_registries))) = Some second_warn.
Proof. vm_compute. reflexivity. Qed.

Definition malformed_button : candidate :=
  mk_candidate "interactions/buttons/stale.ts" (Some (ExportObject None (Some "stale") false)).

Definition malformed_command : candidate :=
  mk_candidate "commands/util/broken.ts" (Some (ExportObject (Some "broken") None false)).

Definition button_without_default : candidate :=
  mk_candidate "interactions/buttons/empty.ts" (Some NotAnObject).

Definition good_modal : candidate :=
  mk_candidate "interactions/modals/report.ts" (Some (ExportObject None (Some "report") true)).

(** C9 at the failing inputs. (1) A button module without [execute] is
    skipped with no log entry at all, whereas the sibling [loadCommands]
    logs its malformed candidates with console.warn. (2) A button module
    without a default export makes the [in] check throw, which aborts
    [loadInteractions] before the modals are loaded, so a well-formed
    modal is not registered. *)
Lemma loadButtons_malformed_silent_or_fatal :
  loadButtons (Some [malformed_button]) empty_registries = (Ok tt, empty_registries) /\
  In (WarnLine "Command in commands/util/broken.ts is missing required properties.")
     (logs (snd (loadCommands (Some [("util", [malformed_command])]) empty_registries))) /\
  collection_get "report"
    (modals (snd (loadInteractions (Some [button_without_default]) (Some [good_modal]) None
                    empty_registries))) = None /\
  collection_get "report"
    (modals (snd (loadInteractions None (Some [good_modal]) None empty_registries)))
    = Some (ExportObject None (Some "report") true).
Proof.
  split; [reflexivity|]. split; [vm_compute; auto|]. split; vm_compute; reflexivity.
Qed.

End LoaderProofs.

(* ================================================================== *)
(** ** Dispatcher: independence of successive interactions             *)
(* ================================================================== *)

Module DispatcherFrame.
Import Dispatcher.

(** The output of [d] appended after the output already in [s]. *)
Definition app_dstate (s d : dstate) : dstate :=
  mk_dstate (logs s ++ logs d) (sent s ++ sent d).

(** A computation whose output does not depend on the output before it:
    run from any state, it appends what it appends when run alone. *)
Definition framed {A} (m : M A) : Prop :=
  forall s, m s = (fst (m empty_dstate), app_dstate s (snd (m empty_dstate))).

Lemma app_dstate_empty_r (s : dstate) : app_dstate s empty_dstate = s.
Proof. destruct s. unfold app_dstate. simpl. rewrite !app_nil_r. reflexivity. Qed.

Lemma app_dstate_empty_l (s : dstate) : app_dstate empty_dstate s = s.
Proof. destruct s. reflexivity. Qed.

Lemma app_dstate_assoc (s d e : dstate) :
  app_dstate (app_dstate s d) e = app_dstate s (app_dstate d e).
Proof. unfold app_dstate. simpl. rewrite !app_assoc. reflexivity. Qed.

Lemma framed_ret {A} (a : A) : framed (ret a).
Proof. intros s. unfold ret. simpl. rewrite app_dstate_empty_r. reflexivity. Qed.

Lemma framed_raise {A} (v : thrown) : framed (@raise A v).
Proof. intros s. unfold raise. simpl. rewrite app_dstate_empty_r. reflexivity. Qed.

Lemma framed_console (e : log_entry) : framed (console e).
Proof. intros s. unfold console, app_dstate. simpl. rewrite app_nil_r. reflexivity. Qed.

Lemma framed_send (i : interaction) (m : sent_message) : framed (send i m).
Proof.
  intros s. unfold send. destruct (platform_accepts i).
  { unfold app_dstate. simpl. rewrite app_nil_r. reflexivity. }
  simpl. rewrite app_dstate_empty_r. reflexivity.
Qed.

Lemma framed_bind {A B} (m : M A) (f : A -> M B) :
  framed m -> (forall a, framed (f a)) -> framed (bind m f).
Proof.
  intros Hm Hf s. unfold bind. rewrite (Hm s).
  destruct (m empty_dstate) as [[a | v] d]; simpl.
  - rewrite (Hf a (app_dstate s d)), (Hf a d), app_dstate_assoc. reflexivity.
  - reflexivity.
Qed.

Lemma framed_try_catch {A} (m : M A) (h : thrown -> M A) :
  framed m -> (forall v, framed (h v)) -> framed (try_catch m h).
Proof.
  intros Hm Hh s. unfold try_catch. rewrite (Hm s).
  destruct (m empty_dstate) as [[a | v] d]; simpl.
  - reflexivity.
  - rewrite (Hh v (app_dstate s d)), (Hh v d), app_dstate_assoc. reflexivity.
Qed.

Lemma framed_js_String (v : thrown) : framed (js_String v).
Proof. destruct v; simpl; [apply framed_ret | apply framed_ret | apply framed_ret | apply framed_raise]. Qed.

Ltac framed_step :=
  first
    [ apply framed_bind; [| intros ?]
    | apply framed_try_catch; [| intros ?]
    | apply framed_ret | apply framed_raise | apply framed_console
    | apply framed_send | apply framed_js_String
    | progress case_match ].

Lemma framed_sendErrorResponse (i : interaction) (msg : string) (e : error_arg) (t : string) :
  framed (sendErrorResponse i msg e t).
Proof. unfold sendErrorResponse. repeat framed_step. Qed.

Lemma framed_execute (cmds : commands) (i : interaction) : framed (execute cmds i).
Proof.
  unfold execute, handleChatInputCommand, handleButtonInteraction,
    handleSelectMenuInteraction, handleModalInteraction.
  repeat (framed_step || apply framed_sendErrorResponse).
Qed.



(** The dispatcher itself sends a message to the user only for a slash
    command, and only when the command is unknown or its handler throws;
    buttons, select menus, modals, other interactions and successful
    commands get nothing from it. *)
Theorem execute_sends_only_on_miss_or_failure (cmds : commands) (i : interaction) (s : dstate) :
  sent (snd (execute cmds i s)) <> sent s ->
  kind i = ChatInputCommand /\
  (cmds !! key i = None \/
   exists cmd v, cmds !! key i = Some cmd /\ run_outcome (cmd i) = Some v).
Proof.
  rewrite (framed_execute cmds i s). simpl. intros Hs.
  destruct i as [k name tag rep def acc]. cbn [kind key].
  destruct k.
  - split; [reflexivity|].
    destruct (cmds !! name) as [cmd|] eqn:E; [|left; reflexivity].
    right. exists cmd.
    destruct (run_outcome (cmd (mk_interaction ChatInputCommand name tag rep def acc)))
      as [v|] eqn:Ev; [eauto|].
    exfalso. apply Hs. unfold execute. cbn [kind].
    unfold handleChatInputCommand. cbv zeta. cbn [key].
    assert (E' : @lookup string (interaction -> command_run) (gmap string command) _
                   name cmds = Some cmd) by exact E.
    rewrite E'. unfold try_catch, bind, console. rewrite Ev. simpl.
    rewrite app_nil_r. reflexivity.
  - exfalso. apply Hs. unfold execute, handleButtonInteraction, try_catch, bind, console, ret.
    simpl. destruct (String.eqb name "ping_refresh"); simpl; apply app_nil_r.
  - exfalso. apply Hs. unfold execute, handleSelectMenuInteraction, try_catch, bind, console.
    simpl. apply app_nil_r.
  - exfalso. apply Hs. unfold execute, handleModalInteraction, try_catch, bind, console.
    simpl. apply app_nil_r.
  - exfalso. apply Hs. unfold execute, try_catch, ret. simpl. apply app_nil_r.
Qed.

Lemma execute_sends_only_on_miss_or_failure_witness :
  sent (snd (execute DispatcherProofs.no_commands DispatcherProofs.unknown_slash_call
               empty_dstate)) <> sent empty_dstate /\
  kind DispatcherProofs.unknown_slash_call = ChatInputCommand.
Proof.
  assert (H : sent (snd (execute DispatcherProofs.no_commands DispatcherProofs.unknown_slash_call
                           empty_dstate)) <> sent empty_dstate) by (vm_compute; discriminate).
  split; [exact H|].
  exact (proj1 (execute_sends_only_on_miss_or_failure _ _ _ H)).
Defined.

End DispatcherFrame.

(* ================================================================== *)
(** ** More properties of the infraction store                         *)
(* ================================================================== *)

Module StoreExtraProofs.
Import InfractionStore InfractionStats StoreProofs.

(** *** List helpers *)

Lemma Permutation_filter_bool {A} (f : A -> bool) (l l' : list A) :
  Permutation l l' -> Permutation (List.filter f l) (List.filter f l').
Proof.
  induction 1 as [| x l l' _ IH | x y l | l l' l'' _ IH1 _ IH2]; simpl.
  - constructor.
  - destruct (f x); [constructor|]; exact IH.
  - destruct (f x), (f y); try constructor; try reflexivity.
  - etransitivity; eassumption.
Qed.

Lemma StronglySorted_filter {A} (R : A -> A -> Prop) (f : A -> bool) (l : list A) :
  StronglySorted R l -> StronglySorted R (List.filter f l).
Proof.
  induction 1 as [| x l _ IH Hall]; simpl; [constructor|].
  destruct (f x); [|exact IH]. constructor; [exact IH|].
  rewrite List.Forall_forall in *. intros y Hy. apply filter_In in Hy. apply Hall, Hy.
Qed.

Lemma created_desc_trans : Transitive created_desc.
Proof. intros a b c. unfold created_desc. lia. Qed.

Lemma Sorted_filter_created (f : row -> bool) (l : list row) :
  Sorted created_desc l -> Sorted created_desc (List.filter f l).
Proof.
  intros H. apply StronglySorted_Sorted. apply StronglySorted_filter.
  apply Sorted_StronglySorted; [exact created_desc_trans | exact H].
Qed.

Lemma count_type_app (l l' : list row) (t : InfractionType) :
  count_type (l ++ l') t = (count_type l t + count_type l' t)%nat.
Proof. unfold count_type. rewrite List.filter_app, List.length_app. reflexivity. Qed.

Lemma count_type_total (rs : list row) :
  length rs = (count_type rs WARN + count_type rs MUTE + count_type rs KICK +
               count_type rs BAN + count_type rs TIMEOUT)%nat.
Proof.
  unfold count_type. induction rs as [|x rs IH]; simpl; [reflexivity|].
  destruct (row_type x); simpl; repeat case_bool_decide; simpl; try congruence; lia.
Qed.

(** *** [getStats] *)

(** [getStats] on an open store: the total is the sum of the five
    per-type counts, since every stored row has one of the five types;
    on a closed store it throws. *)
Theorem getStats_total_is_sum_of_types (st : store) :
  match getStats st with
  | Ok s => db_open st = true /\
            infractions s = (warns s + mutes s + kicks s + bans s + timeouts s)%nat
  | Throw e => db_open st = false /\ e = DatabaseNotOpen
  end.
Proof.
  unfold getStats. destruct (db_open st) eqn:E; simpl.
  - split; [reflexivity | apply count_type_total].
  - auto.
Qed.

(** No sequence of store operations lowers any count reported by
    [getStats]. *)
Theorem getStats_counts_never_decrease (r : rng) (st : store) (n : nat) (ops : list store_op)
  (st' : store) (n' : nat) (a b : stats) :
  store_steps r st n ops st' n' ->
  getStats st = Ok a -> getStats st' = Ok b ->
  (infractions a <= infractions b /\ warns a <= warns b /\ mutes a <= mutes b /\
   kicks a <= kicks b /\ bans a <= bans b /\ timeouts a <= timeouts b)%nat.
Proof.
  intros Hs Ha Hb.
  destruct (store_steps_appends _ _ _ _ _ _ Hs) as [[extra Hext] _].
  unfold getStats in Ha, Hb.
  destruct (db_open st); [|discriminate]. destruct (db_open st'); [|discriminate].
  injection Ha as <-. injection Hb as <-. simpl. rewrite Hext, length_app, !count_type_app. lia.
Qed.

Lemma getStats_counts_never_decrease_witness :
  store_steps collide_then_b taken_store 0
    [OpGetStats; OpAddWarning "u2" "g1" "m1" "rude"; OpAddInfraction "u1" "g1" "m1" BAN "raid"]
    (mk_store true [taken_row; mk_row "BBBBBBBB" "u2" "g1" "m1" WARN "rude" 5%Z;
                    mk_row "CCCCCCCC" "u1" "g1" "m1" BAN "raid" 6%Z]) 24 /\
  getStats taken_store = Ok (mk_stats 1 1 0 0 0 0) /\
  getStats (mk_store true [taken_row; mk_row "BBBBBBBB" "u2" "g1" "m1" WARN "rude" 5%Z;
                           mk_row "CCCCCCCC" "u1" "g1" "m1" BAN "raid" 6%Z])
    = Ok (mk_stats 3 2 0 0 1 0) /\
  (1 <= 3 /\ 1 <= 2 /\ 0 <= 0 /\ 0 <= 0 /\ 0 <= 1 /\ 0 <= 0)%nat.
Proof.
  assert (Hs : store_steps collide_then_b taken_store 0
    [OpGetStats; OpAddWarning "u2" "g1" "m1" "rude"; OpAddInfraction "u1" "g1" "m1" BAN "raid"]
    (mk_store true [taken_row; mk_row "BBBBBBBB" "u2" "g1" "m1" WARN "rude" 5%Z;
                    mk_row "CCCCCCCC" "u1" "g1" "m1" BAN "raid" 6%Z]) 24).
  { econstructor; [apply step_stats|].
    econstructor.
    { apply (step_add_warning collide_then_b taken_store 0 5%Z "u2" "g1" "m1" "rude"
               (Ok "BBBBBBBB")).
      apply collide_then_b_add. }
    econstructor; [|constructor].
    apply (step_add collide_then_b _ 16 6%Z "u1" "g1" "m1" BAN "raid" (Ok "CCCCCCCC")).
    apply (add_ok (mk_store true [taken_row; mk_row "BBBBBBBB" "u2" "g1" "m1" WARN "rude" 5%Z])
             collide_then_b 16 6%Z "u1" "g1" "m1" BAN "raid" "CCCCCCCC" 24); [reflexivity|].
    apply unique_found; reflexivity. }
  assert (Ha : getStats taken_store = Ok (mk_stats 1 1 0 0 0 0)) by reflexivity.
  assert (Hb : getStats (mk_store true [taken_row; mk_row "BBBBBBBB" "u2" "g1" "m1" WARN "rude" 5%Z;
                                        mk_row "CCCCCCCC" "u1" "g1" "m1" BAN "raid" 6%Z])
               = Ok (mk_stats 3 2 0 0 1 0)) by reflexivity.
  split; [exact Hs|]. split; [exact Ha|]. split; [exact Hb|].
  exact (getStats_counts_never_decrease _ _ _ _ _ _ _ _ Hs Ha Hb).
Defined.

(** *** [getInfractionById] *)

Lemma find_some_row (f : row -> bool) (l : list row) (x : row) :
  find f l = Some x -> In x l /\ f x = true.
Proof.
  induction l as [|y l IH]; simpl; [discriminate|].
  destruct (f y) eqn:E.
  - intros [= <-]. auto.
  - intros H. destruct (IH H). auto.
Qed.

Lemma find_none_row (f : row -> bool) (l : list row) :
  find f l = None -> forall x, In x l -> f x = false.
Proof.
  induction l as [|y l IH]; simpl; [intros _ _ []|].
  destruct (f y) eqn:E; [discriminate|].
  intros H x [<- | Hx]; auto.
Qed.

Lemma find_app_row (f : row -> bool) (l l' : list row) :
  find f (l ++ l') = match find f l with Some x => Some x | None => find f l' end.
Proof. induction l as [|y l IH]; simpl; [reflexivity|]. destruct (f y); [reflexivity | exact IH]. Qed.

(** [getInfractionById] as a lookup: a returned infraction has the
    requested id and is one of the stored rows; [null] means that no
    stored row has that id; on a closed store it throws. *)
Theorem getInfractionById_lookup (st : store) (i : string) :
  match getInfractionById st i with
  | Ok (Some x) => db_open st = true /\ id x = i /\ In x (map row_to_infraction (rows st))
  | Ok None => db_open st = true /\ ~ In i (map row_id (rows st))
  | Throw e => db_open st = false /\ e = DatabaseNotOpen
  end.
Proof.
  unfold getInfractionById. destruct (db_open st); [|auto].
  destruct (find (fun r => String.eqb (row_id r) i) (rows st)) as [x|] eqn:E; simpl.
  - destruct (find_some_row _ _ _ E) as [Hin Heq]. apply String.eqb_eq in Heq.
    split; [reflexivity|]. split; [exact Heq | apply in_map; exact Hin].
  - split; [reflexivity|]. intros Hin. apply in_map_iff in Hin. destruct Hin as (x & Hx & Hin).
    pose proof (find_none_row _ _ E x Hin) as Hf. cbn beta in Hf. rewrite Hx, String.eqb_refl in Hf.
    discriminate.
Qed.

(** An [addInfraction] call, successful or not, changes the result of
    [getInfractionById] for no id other than the one it returns. *)
Theorem addInfraction_other_ids_unchanged (st : store) (r : rng) (n : nat) (now : Z)
  (uid gid mid : string) (t : InfractionType) (rsn : string) (res : result string)
  (st' : store) (n' : nat) (j : string) :
  addInfraction st r n now uid gid mid t rsn res st' n' ->
  res <> Ok j ->
  getInfractionById st' j = getInfractionById st j.
Proof.
  intros Hadd Hj. inversion Hadd as [i n'' Hopen Hl Heq1 Heq2 Heq3 | Hclosed Heq1 Heq2 Heq3]; subst.
  - unfold getInfractionById. simpl. rewrite Hopen, find_app_row. simpl.
    destruct (find (fun r0 => String.eqb (row_id r0) j) (rows st)); [reflexivity|].
    destruct (String.eqb i j) eqn:E; [|reflexivity].
    apply String.eqb_eq in E. subst. contradiction.
  - reflexivity.
Qed.

Lemma addInfraction_other_ids_unchanged_witness :
  addInfraction taken_store collide_then_b 0 5%Z "u2" "g1" "m1" WARN "spam"
    (Ok "BBBBBBBB") (mk_store true [taken_row; mk_row "BBBBBBBB" "u2" "g1" "m1" WARN "spam" 5%Z])
    16 /\
  getInfractionById taken_store "AAAAAAAA" = Ok (Some (row_to_infraction taken_row)) /\
  getInfractionById (mk_store true [taken_row; mk_row "BBBBBBBB" "u2" "g1" "m1" WARN "spam" 5%Z])
    "AAAAAAAA" = getInfractionById taken_store "AAAAAAAA".
Proof.
  pose proof (collide_then_b_add 5%Z "u2" "g1" "m1" WARN "spam") as H.
  split; [exact H|]. split; [reflexivity|].
  apply (addInfraction_other_ids_unchanged _ _ _ _ _ _ _ _ _ _ _ _ _ H). discriminate.
Defined.

(** *** Queries with a type filter *)

Lemma filter_and {A} (f g : A -> bool) (l : list A) :
  List.filter (fun x => f x && g x) l = List.filter g (List.filter f l).
Proof.
  induction l as [|x l IH]; simpl; [reflexivity|].
  destruct (f x); simpl; [destruct (g x); simpl; [f_equal|]|]; exact IH.
Qed.

Lemma filter_scope_type (uid gid : string) (t : InfractionType) (l : list row) :
  List.filter (matches_scope uid gid (Some t)) l =
  List.filter (fun r => bool_decide (row_type r = t)) (List.filter (matches_scope uid gid None) l).
Proof.
  rewrite <- filter_and. apply List.filter_ext. intros x.
  unfold matches_scope. rewrite andb_true_r. reflexivity.
Qed.

Lemma map_filter_type (t : InfractionType) (l : list row) :
  map row_to_infraction (List.filter (fun r => bool_decide (row_type r = t)) l) =
  List.filter (fun x => bool_decide (type x = t)) (map row_to_infraction l).
Proof.
  induction l as [|x l IH]; simpl; [reflexivity|].
  destruct (bool_decide (row_type x = t)); simpl; [f_equal|]; exact IH.
Qed.

(** Filtering any result of the unfiltered [getUserInfractions] query to
    one type gives a result of the query with that type. *)
Theorem getUserInfractions_type_is_filter (st : store) (uid gid : string)
  (t : InfractionType) (l : list Infraction) :
  getUserInfractions st uid gid None (Ok l) ->
  getUserInfractions st uid gid (Some t)
    (Ok (List.filter (fun x => bool_decide (type x = t)) l)).
Proof.
  intros [Hopen (out & [Hperm Hsorted] & ->)]. split; [exact Hopen|].
  exists (List.filter (fun r => bool_decide (row_type r = t)) out). split; [split|].
  - rewrite filter_scope_type. apply Permutation_filter_bool. exact Hperm.
  - apply Sorted_filter_created. exact Hsorted.
  - symmetry. apply map_filter_type.
Qed.

Lemma getUserInfractions_type_is_filter_witness :
  getUserInfractions tie_store "u1" "g1" None
    (Ok [row_to_infraction tie_row1; row_to_infraction tie_row2]) /\
  getUserInfractions tie_store "u1" "g1" (Some MUTE) (Ok []).
Proof.
  split; [exact tie_store_oldest_first|].
  exact (getUserInfractions_type_is_filter tie_store "u1" "g1" MUTE _ tie_store_oldest_first).
Defined.

Lemma scope_count_by_type (uid gid : string) (l : list row) :
  length (List.filter (matches_scope uid gid None) l) =
  (length (List.filter (matches_scope uid gid (Some WARN)) l) +
   length (List.filter (matches_scope uid gid (Some MUTE)) l) +
   length (List.filter (matches_scope uid gid (Some KICK)) l) +
   length (List.filter (matches_scope uid gid (Some BAN)) l) +
   length (List.filter (matches_scope uid gid (Some TIMEOUT)) l))%nat.
Proof.
  rewrite !filter_scope_type. apply count_type_total.
Qed.

(** For one user in one guild, the counts of [getInfractionCount] per
    type add up to its count without a type. *)
Theorem getInfractionCount_sum_of_types (st : store) (uid gid : string)
  (nw nm nk nb nt : nat) :
  getInfractionCount st uid gid (Some WARN) = Ok nw ->
  getInfractionCount st uid gid (Some MUTE) = Ok nm ->
  getInfractionCount st uid gid (Some KICK) = Ok nk ->
  getInfractionCount st uid gid (Some BAN) = Ok nb ->
  getInfractionCount st uid gid (Some TIMEOUT) = Ok nt ->
  getInfractionCount st uid gid None = Ok (nw + nm + nk + nb + nt)%nat.
Proof.
  unfold getInfractionCount. destruct (db_open st); [|discriminate].
  intros [= <-] [= <-] [= <-] [= <-] [= <-]. f_equal. apply scope_count_by_type.
Qed.

Lemma getInfractionCount_sum_of_types_witness :
  getInfractionCount tie_store "u1" "g1" None = Ok 2%nat.
Proof.
  apply (getInfractionCount_sum_of_types tie_store "u1" "g1" 2 0 0 0 0); reflexivity.
Defined.

(** *** Every well-formed id can be drawn *)

Fixpoint index_in (c : ascii) (s : string) : nat :=
  match s with
  | EmptyString => 0
  | String c' s' => if Ascii.eqb c c' then 0 else S (index_in c s')
  end.

Lemma index_in_get (c : ascii) (s : string) :
  In c (list_ascii_of_string s) ->
  String.get (index_in c s) s = Some c /\ (index_in c s < String.length s)%nat.
Proof.
  induction s as [|c' s IH]; simpl; [intros []|].
  intros Hin. destruct (Ascii.eqb c c') eqn:E.
  - apply Ascii.eqb_eq in E. subst. split; [reflexivity | lia].
  - apply Ascii.eqb_neq in E. destruct Hin as [-> | Hin]; [congruence|].
    destruct (IH Hin) as [H1 H2]. split; [exact H1 | lia].
Qed.

(** The smallest draw that selects character [j]: [ceil(j * 2^53 / 36)]. *)
Definition draw_for (j : nat) : Z := ((Z.of_nat j * random_denominator + 35) / 36)%Z.

Lemma draw_for_spec (j : nat) :
  (j < 36)%nat ->
  (0 <= draw_for j < random_denominator)%Z /\ random_index (draw_for j) = j.
Proof.
  intros Hj. unfold random_index, draw_for, random_denominator. rewrite chars_length.
  change (Z.of_nat 36) with 36%Z.
  set (k := ((Z.of_nat j * 2 ^ 53 + 35) / 36)%Z).
  pose proof (Z.div_mod (Z.of_nat j * 2 ^ 53 + 35) 36 ltac:(lia)) as Hdm.
  pose proof (Z.mod_pos_bound (Z.of_nat j * 2 ^ 53 + 35) 36 ltac:(lia)) as Hmb.
  fold k in Hdm.
  assert (Hk1 : (Z.of_nat j * 2 ^ 53 <= 36 * k <= Z.of_nat j * 2 ^ 53 + 35)%Z) by lia.
  split; [lia|].
  assert (Hlo : (Z.of_nat j <= k * 36 / 2 ^ 53)%Z)
    by (apply Z.div_le_lower_bound; lia).
  assert (Hhi : (k * 36 / 2 ^ 53 < Z.of_nat j + 1)%Z)
    by (apply Z.div_lt_upper_bound; lia).
  lia.
Qed.

Lemma string_append_snoc (a : string) (c : ascii) (b : string) :
  String.append (String.append a (String c EmptyString)) b = String.append a (String c b).
Proof.
  rewrite <- (string_of_list_ascii_of_string (String.append (String.append a _) b)),
          <- (string_of_list_ascii_of_string (String.append a (String c b))).
  f_equal. rewrite !list_ascii_append. simpl. rewrite <- app_assoc. reflexivity.
Qed.

Lemma string_append_empty_r (a : string) : String.append a EmptyString = a.
Proof.
  transitivity (string_of_list_ascii (list_ascii_of_string (String.append a EmptyString))).
  - symmetry. apply string_of_list_ascii_of_string.
  - rewrite list_ascii_append. simpl. rewrite app_nil_r. apply string_of_list_ascii_of_string.
Qed.

Lemma generate_loop_follows (l : list ascii) (r : rng) (n : nat) (acc : string) :
  (forall k c, nth_error l k = Some c ->
     charAt chars (random_index (r (n + k)%nat)) = String c EmptyString) ->
  fst (generate_loop (length l) r n acc) = String.append acc (string_of_list_ascii l).
Proof.
  revert n acc. induction l as [|c l IH]; intros n acc Hd; simpl.
  - symmetry. apply string_append_empty_r.
  - pose proof (Hd 0%nat c eq_refl) as H0. rewrite Nat.add_0_r in H0. rewrite H0.
    rewrite IH.
    + apply string_append_snoc.
    + intros k c' Hk. replace (S n + k)%nat with (n + S k)%nat by lia. apply Hd. exact Hk.
Qed.

Lemma list_ascii_length (s : string) : length (list_ascii_of_string s) = String.length s.
Proof. induction s as [|c s IH]; simpl; [reflexivity | rewrite IH; reflexivity]. Qed.

(** Every id of the shape [generateInfractionId] produces (eight
    characters from [chars]) is produced by some sequence of draws of
    [Math.random()] in [0, 1), wherever in the stream the call starts. *)
Theorem generateInfractionId_covers_all_ids (i : string) (n : nat) :
  well_formed_id i ->
  exists r, random_in_range r /\ fst (generateInfractionId r n) = i.
Proof.
  intros [Hlen Hall].
  set (l := list_ascii_of_string i).
  set (r := fun m : nat =>
              if (n <=? m)%nat then
                match nth_error l (m - n) with
                | Some c => draw_for (index_in c chars)
                | None => 0%Z
                end
              else 0%Z).
  assert (Hchar : forall c, In c l ->
            (index_in c chars < 36)%nat /\ String.get (index_in c chars) chars = Some c).
  { intros c Hc. rewrite List.Forall_forall in Hall. destruct (Hall c Hc) as [_ Hin].
    destruct (index_in_get c chars Hin) as [H1 H2]. rewrite chars_length in H2. auto. }
  exists r. split.
  - intros m. unfold r. destruct (n <=? m)%nat; [|unfold random_denominator; lia].
    destruct (nth_error l (m - n)) as [c|] eqn:E; [|unfold random_denominator; lia].
    apply draw_for_spec. apply Hchar. eapply nth_error_In. exact E.
  - unfold generateInfractionId.
    replace 8%nat with (length l) by (unfold l; rewrite list_ascii_length; exact Hlen).
    rewrite generate_loop_follows with (l := l).
    + simpl. unfold l. apply string_of_list_ascii_of_string.
    + intros k c Hk. unfold r.
      replace (n <=? n + k)%nat with true by (symmetry; apply Nat.leb_le; lia).
      replace (n + k - n)%nat with k by lia. rewrite Hk.
      assert (Hc : In c l) by (eapply nth_error_In; exact Hk).
      destruct (Hchar c Hc) as [Hlt Hget].
      rewrite (proj2 (draw_for_spec _ Hlt)). unfold charAt. rewrite Hget. reflexivity.
Qed.

Lemma generateInfractionId_covers_all_ids_witness :
  exists r, random_in_range r /\ fst (generateInfractionId r 0) = "Z9Y8X7W6".
Proof.
  apply generateInfractionId_covers_all_ids.
  split; [reflexivity|].
  apply List.Forall_forall. intros c Hc. simpl in Hc.
  repeat destruct Hc as [<- | Hc]; try contradiction;
    (split; [reflexivity | simpl; auto 40]).
Defined.

End StoreExtraProofs.

(* ================================================================== *)
(** ** Proofs about the warn command                                   *)
(* ================================================================== *)

Module WarnProofs.
Import WarnCommand.

Lemma warn_guard_spec (toLowerCase : string -> string) (c : warn_call)
  (g : guild_info) (m : member_info) (u : user_info) (reason : string) (tm : target_member) :
  warn_guard toLowerCase c = inr (Checked g m u reason tm) ->
  guild c = Some g /\ member c = Some m /\ target c = Some u /\ reason_opt c = Some reason /\
  reason <> EmptyString /\ hasAllowedRole toLowerCase m = true /\
  fetch c (target_id u) = Some tm /\ manageable tm = true /\
  ((target_highest tm < highest_position m)%Z \/ member_id m = ownerId g).
Proof.
  unfold warn_guard.
  destruct (guild c) as [g'|]; [|discriminate].
  destruct (member c) as [m'|]; [|discriminate].
  destruct (target c) as [u'|]; [|discriminate].
  destruct (reason_opt c) as [[|ch rs]|]; try discriminate.
  destruct (hasAllowedRole toLowerCase m') eqn:Hrole; [|discriminate]. simpl.
  destruct (fetch c (target_id u')) as [tm'|] eqn:Hf; [|discriminate].
  destruct (manageable tm') eqn:Hman; [|discriminate]. simpl.
  destruct (Z.leb (highest_position m') (target_highest tm')) eqn:Hle;
    destruct (String.eqb (member_id m') (ownerId g')) eqn:Hown; simpl; try discriminate;
    intros [= <- <- <- <- <-];
    repeat split; auto; try discriminate;
    first [ left; apply Z.leb_gt; exact Hle | right; apply String.eqb_eq; exact Hown ].
Qed.

(** [/warn] writes at most one row, and only after every check has
    passed: the command is used in a guild by a member, with a target and
    a non-empty reason; the member has an allowed role; the target is a
    member the bot can manage; the invoker outranks the target or owns
    the guild. The row is a WARN against the fetched member, in that
    guild, by the invoking user, with that reason, under an id no stored
    row had. In every other case the store is unchanged. *)
Theorem warn_stores_only_after_all_checks (toLowerCase : string -> string)
  (st : InfractionStore.store) (r : InfractionStore.rng) (n : nat) (now : Z) (c : warn_call)
  (outs : list warn_output) (st' : InfractionStore.store) (n' : nat) :
  execute toLowerCase st r n now c outs st' n' ->
  st' = st \/
  exists g m u reason tm i,
    guild c = Some g /\ member c = Some m /\ target c = Some u /\
    reason_opt c = Some reason /\ reason <> EmptyString /\
    hasAllowedRole toLowerCase m = true /\
    fetch c (target_id u) = Some tm /\ manageable tm = true /\
    ((target_highest tm < highest_position m)%Z \/ member_id m = ownerId g) /\
    InfractionStore.db_open st = true /\
    ~ In i (map InfractionStore.row_id (InfractionStore.rows st)) /\
    st' = InfractionStore.mk_store true
            (InfractionStore.rows st ++
             [InfractionStore.mk_row i (tm_user_id tm) (guild_key g) (invoker_id c)
                InfractionStore.WARN reason now]).
Proof.
  destruct 1 as [msg Hg | g m u reason tm res outs0 st1 n1 Hg Hw]; [left; reflexivity|].
  destruct Hw as [Hng | g' i st2 n2 Hg' Hadd | g' e st2 n2 Hg' Hadd].
  - left. reflexivity.
  - right. destruct (warn_guard_spec _ _ _ _ _ _ _ Hg) as (H1 & H2 & H3 & H4 & H5 & H6 & H7 & H8 & H9).
    rewrite H1 in Hg'. injection Hg' as <-.
    unfold InfractionStore.addWarning in Hadd.
    inversion Hadd as [i' n'' Hopen Hl Heq1 Heq2 Heq3 |]; subst.
    destruct (StoreProofs.getUniqueInfractionId_returns_candidate _ _ _ _ _ Hl) as [Hu _].
    apply StoreProofs.isInfractionIdUnique_spec in Hu.
    exists g, m, u, reason, tm, i. repeat split; assumption.
  - left. unfold InfractionStore.addWarning in Hadd.
    inversion Hadd; subst; reflexivity.
Qed.

(** With a closed store, a [/warn] that passes every check leaves the
    store unchanged, logs the failure and answers with the error
    "Failed to save warning to database.". *)
Theorem warn_closed_store_reports_failure (toLowerCase : string -> string)
  (st : InfractionStore.store) (r : InfractionStore.rng) (n : nat) (now : Z) (c : warn_call)
  (g : guild_info) (m : member_info) (u : user_info) (reason : string) (tm : target_member)
  (outs : list warn_output) (st' : InfractionStore.store) (n' : nat) :
  InfractionStore.db_open st = false ->
  warn_guard toLowerCase c = inr (Checked g m u reason tm) ->
  execute toLowerCase st r n now c outs st' n' ->
  st' = st /\
  outs = ConsoleError "Error warning user:" ::
         sendErrorResponse c "Failed to save warning to database.".
Proof.
  intros Hclosed Hg Hex.
  destruct Hex as [msg Hg2 | g2 m2 u2 reason2 tm2 res outs0 st1 n1 Hg2 Hw];
    rewrite Hg in Hg2; [discriminate|].
  injection Hg2 as <- <- <- <- <-.
  destruct Hw as [Hng | g' i st2 n2 Hg' Hadd | g' e st2 n2 Hg' Hadd].
  - destruct (warn_guard_spec _ _ _ _ _ _ _ Hg) as [H1 _]. congruence.
  - unfold InfractionStore.addWarning in Hadd. inversion Hadd; congruence.
  - unfold InfractionStore.addWarning in Hadd. inversion Hadd; subst.
    split; reflexivity.
Qed.

Definition sample_call : warn_call :=
  mk_warn_call (Some (mk_guild "g1" "Guild" "owner1" []))
    (Some (mk_member "m1" "mod#0001" ["Administrator"] 10%Z))
    (Some (mk_user "u1" "user#0001")) (Some "spam") None "m1"
    (fun _ => Some (mk_target "u1" true 1%Z true)) true.

Lemma warn_closed_store_reports_failure_witness :
  exists outs st' n',
    execute (fun s => s) (InfractionStore.mk_store false []) StoreProofs.const_draw 0 0%Z
      sample_call outs st' n' /\
    st' = InfractionStore.mk_store false [] /\
    outs = ConsoleError "Error warning user:" ::
           sendErrorResponse sample_call "Failed to save warning to database.".
Proof.
  assert (Hg : warn_guard (fun s => s) sample_call =
               inr (Checked (mk_guild "g1" "Guild" "owner1" [])
                      (mk_member "m1" "mod#0001" ["Administrator"] 10%Z)
                      (mk_user "u1" "user#0001") "spam" (mk_target "u1" true 1%Z true)))
    by reflexivity.
  assert (Hex : execute (fun s => s) (InfractionStore.mk_store false []) StoreProofs.const_draw
                  0 0%Z sample_call
                  ([ConsoleError "Error warning user:"] ++
                   after_warnUser sample_call (mk_guild "g1" "Guild" "owner1" [])
                     (mk_member "m1" "mod#0001" ["Administrator"] 10%Z)
                     (mk_user "u1" "user#0001") "spam" (mk_target "u1" true 1%Z true)
                     (WarnFailed "Failed to save warning to database."))
                  (InfractionStore.mk_store false [])
                  (snd (InfractionStore.generateInfractionId StoreProofs.const_draw 0))).
  { eapply warn_ran; [exact Hg|].
    eapply warnUser_failed; [reflexivity|].
    apply InfractionStore.add_closed. reflexivity. }
  do 3 eexists. split; [exact Hex|].
  exact (warn_closed_store_reports_failure _ _ _ _ _ _ _ _ _ _ _ _ _ _
           (eq_refl : InfractionStore.db_open (InfractionStore.mk_store false []) = false)
           Hg Hex).
Defined.

Lemma warn_stores_only_after_all_checks_witness :
  exists outs st' n',
    execute (fun s => s) StoreProofs.open_empty StoreProofs.const_draw 0 5%Z sample_call
      outs st' n' /\
    (st' = StoreProofs.open_empty \/
     exists g m u reason tm i,
       guild sample_call = Some g /\ member sample_call = Some m /\
       target sample_call = Some u /\
       reason_opt sample_call = Some reason /\ reason <> EmptyString /\
       hasAllowedRole (fun s => s) m = true /\
       fetch sample_call (target_id u) = Some tm /\ manageable tm = true /\
       ((target_highest tm < highest_position m)%Z \/ member_id m = ownerId g) /\
       InfractionStore.db_open StoreProofs.open_empty = true /\
       ~ In i (map InfractionStore.row_id (InfractionStore.rows StoreProofs.open_empty)) /\
       st' = InfractionStore.mk_store true
               (InfractionStore.rows StoreProofs.open_empty ++
                [InfractionStore.mk_row i (tm_user_id tm) (guild_key g) (invoker_id sample_call)
                   InfractionStore.WARN reason 5%Z])).
Proof.
  assert (Hex : execute (fun s => s) StoreProofs.open_empty StoreProofs.const_draw 0 5%Z
                  sample_call
                  ([] ++
                   after_warnUser sample_call (mk_guild "g1" "Guild" "owner1" [])
                     (mk_member "m1" "mod#0001" ["Administrator"] 10%Z)
                     (mk_user "u1" "user#0001") "spam" (mk_target "u1" true 1%Z true)
                     (WarnSucceeded "AAAAAAAA" (evidence_of sample_call)))
                  (InfractionStore.mk_store true
                     [InfractionStore.mk_row "AAAAAAAA" "u1" "g1" "m1"
                        InfractionStore.WARN "spam" 5%Z]) 8).
  { eapply warn_ran; [reflexivity|].
    eapply warnUser_saved; [reflexivity|].
    apply (InfractionStore.add_ok StoreProofs.open_empty StoreProofs.const_draw 0 5%Z
             "u1" "g1" "m1" InfractionStore.WARN "spam" "AAAAAAAA" 8).
    - reflexivity.
    - apply InfractionStore.unique_found; reflexivity. }
  do 3 eexists. split; [exact Hex|].
  exact (warn_stores_only_after_all_checks _ _ _ _ _ _ _ _ _ Hex).
Defined.

(** The channel search of [sendToLoggingChannel] (the same loop in
    warn.ts and nickname.ts): the chosen channel is text-based, its name
    is in the list, no text channel carries a name that comes earlier in
    the list, and among the text channels with its name it is the first
    in cache order. With no result, no text channel has any listed name. *)
Theorem find_log_channel_priority (names : list string) (cs : list channel) :
  match find_log_channel names cs with
  | Some ch =>
      isTextBased ch = true /\ In ch cs /\
      List.find (fun ch' => String.eqb (channel_name ch') (channel_name ch) && isTextBased ch') cs
        = Some ch /\
      exists pre post, names = pre ++ channel_name ch :: post /\
        forall nm ch', In nm pre -> In ch' cs -> isTextBased ch' = true -> channel_name ch' <> nm
  | None =>
      forall nm ch', In nm names -> In ch' cs -> isTextBased ch' = true -> channel_name ch' <> nm
  end.
Proof.
  induction names as [|nm names IH]; simpl; [intros _ _ []|].
  destruct (List.find (fun ch => String.eqb (channel_name ch) nm && isTextBased ch) cs)
    as [ch|] eqn:E.
  - apply find_some in E as Hf. destruct Hf as [Hin Hp].
    apply andb_prop in Hp. destruct Hp as [Hn Ht]. apply String.eqb_eq in Hn.
    split; [exact Ht|]. split; [exact Hin|]. split; [rewrite Hn; exact E|].
    exists [], names. split; [rewrite Hn; reflexivity|]. intros ? ? [].
  - assert (Hnone : forall ch', In ch' cs -> isTextBased ch' = true -> channel_name ch' <> nm).
    { intros ch' Hin Ht Hn. apply (find_none _ _ E) in Hin.
      rewrite Hn, String.eqb_refl, Ht in Hin. discriminate. }
    destruct (find_log_channel names cs) as [ch|].
    + destruct IH as (Ht & Hin & Hfind & pre & post & Hnames & Hbefore).
      split; [exact Ht|]. split; [exact Hin|]. split; [exact Hfind|].
      exists (nm :: pre), post. split; [rewrite Hnames; reflexivity|].
      intros nm' ch' [<- | Hnm] Hin' Ht'; [apply Hnone; assumption|].
      apply (Hbefore nm'); assumption.
    + intros nm' ch' [<- | Hnm] Hin' Ht'; [apply Hnone; assumption|].
      apply (IH nm'); assumption.
Qed.

End WarnProofs.

(* ================================================================== *)
(** ** Proofs about the nickname command                               *)
(* ================================================================== *)

Module NicknameProofs.
Import NicknameCommand.

Lemma allowed_not_blocked (u : Z) : in_allowed_class u = true -> blocked_code u = false.
Proof.
  intros H. apply not_true_is_false. intros Hb.
  unfold in_allowed_class, js_whitespace in H. unfold blocked_code in Hb.
  repeat rewrite orb_true_iff in H. repeat rewrite orb_true_iff in Hb.
  repeat rewrite andb_true_iff in H. repeat rewrite andb_true_iff in Hb.
  rewrite ?Z.eqb_eq, ?Z.leb_le in H. rewrite ?Z.leb_le in Hb.
  lia.
Qed.

Lemma charCode_loop_allowed (s : utf16) :
  Forall (fun u => in_allowed_class u = true) s -> charCode_loop s = true.
Proof.
  induction 1 as [|x l Hx _ IH]; [reflexivity|].
  simpl. rewrite (allowed_not_blocked x Hx). exact IH.
Qed.

(** [isValidNickname] accepts exactly the non-empty strings made of
    letters, digits, [\s] whitespace, hyphens and underscores: the
    charCode loop after the pattern test never rejects anything, since
    every code unit the pattern allows lies outside the blocked ranges. *)
Theorem isValidNickname_is_pattern_test (s : utf16) :
  isValidNickname s = true <-> s <> [] /\ Forall (fun u => in_allowed_class u = true) s.
Proof.
  unfold isValidNickname, allowedPattern_test.
  destruct s as [|u s]; simpl.
  - split; [discriminate | intros [[] _]; reflexivity].
  - destruct (in_allowed_class u && forallb in_allowed_class s) eqn:E; simpl.
    + apply andb_true_iff in E. destruct E as [Hu Hs].
      assert (Hall : Forall (fun u => in_allowed_class u = true) (u :: s)).
      { constructor; [exact Hu|]. apply List.Forall_forall. intros x Hx.
        apply forallb_forall with (x := x) in Hs; assumption. }
      split; [intros _; split; [discriminate | exact Hall]|intros _].
      exact (charCode_loop_allowed _ Hall).
    + split; [discriminate|]. intros [_ Hall].
      inversion Hall as [|? ? Hu Hs]; subst.
      rewrite Hu in E. simpl in E.
      assert (forallb in_allowed_class s = true) as Hs'.
      { apply forallb_forall. intros x Hx. rewrite List.Forall_forall in Hs. auto. }
      congruence.
Qed.

Section NicknameFacts.
Variable toLowerCase : string -> string.
Variable nick_text : utf16 -> string.

(** A [setNickname] call is allowed by the guards of [execute]: the
    nickname is the option given, and a non-empty one passed
    [isValidNickname]; the member renamed is the invoker (no [user]
    option), the member fetched for the invoker's own id, or, for
    another user, a fetched member after every permission and hierarchy
    check. *)
Definition nick_ok (c : nick_call) (out : nick_output) : Prop :=
  match out with
  | SetNickname x nn _ =>
      nn = nickname_opt c /\
      (nonempty_nick nn = true -> isValidNickname (default [] nn) = true) /\
      exists g m, guild c = Some g /\ member c = Some m /\
        ((target_user c = None /\ x = member_id m) \/
         (exists u tm, target_user c = Some u /\ user_id u = member_id m /\
             fetch c (user_id u) = Some tm /\ x = tm_id tm) \/
         (exists u tm, target_user c = Some u /\ user_id u <> member_id m /\
             fetch c (user_id u) = Some tm /\ x = tm_id tm /\
             (hasModeratorRole toLowerCase m = true \/ manage_nicknames m = true \/
              member_id m = ownerId g) /\
             bot_manage_nicknames g = Some true /\ tm_manageable tm = true /\
             ((tm_highest tm < highest_position m)%Z \/ member_id m = ownerId g)))
  | _ => True
  end.

Definition preserves {A} (P : nick_output -> Prop) (m : NM A) : Prop :=
  forall o, Forall P o -> Forall P (snd (m o)).

Lemma eo_ret {A} P (a : A) : preserves P (ret a).
Proof. intros o H. exact H. Qed.

Lemma eo_throw {A} P : preserves P (@throw A).
Proof. intros o H. exact H. Qed.

Lemma eo_emit P x : P x -> preserves P (emit x).
Proof. intros Hx o H. simpl. apply Forall_app. split; [exact H | constructor; auto]. Qed.

Lemma eo_bind {A B} P (m : NM A) (f : A -> NM B) :
  preserves P m -> (forall a, preserves P (f a)) -> preserves P (bind m f).
Proof.
  intros Hm Hf o H. unfold bind. specialize (Hm o H).
  destruct (m o) as [[a|] o']; simpl in *; [apply Hf|]; exact Hm.
Qed.

Lemma eo_try_catch {A} P (m h : NM A) :
  preserves P m -> preserves P h -> preserves P (try_catch m h).
Proof.
  intros Hm Hh o H. unfold try_catch. specialize (Hm o H).
  destruct (m o) as [[a|] o']; simpl in *; [exact Hm | apply Hh; exact Hm].
Qed.

Lemma eo_reply P c x : P x -> preserves P (reply c x).
Proof. intros Hx. unfold reply. destruct (replies_accepted c); [apply eo_emit, Hx | apply eo_throw]. Qed.

Lemma eo_sendErrorResponse c c' msg : preserves (nick_ok c) (sendErrorResponse c' msg).
Proof. unfold sendErrorResponse. apply eo_try_catch; [apply eo_reply | apply eo_emit]; exact I. Qed.

Lemma eo_handleNicknameError c c' : preserves (nick_ok c) (handleNicknameError c').
Proof. unfold handleNicknameError. apply eo_try_catch; [apply eo_reply | apply eo_emit]; exact I. Qed.

Lemma eo_sendToLoggingChannel c g res : preserves (nick_ok c) (sendToLoggingChannel nick_text g res).
Proof.
  unfold sendToLoggingChannel.
  destruct (WarnCommand.find_log_channel logChannelNames (guild_channels g)) as [ch|].
  - destruct (WarnCommand.channel_accepts ch); [apply eo_emit; exact I|].
    apply eo_bind; [apply eo_emit; exact I | intros _; apply eo_emit; exact I].
  - apply eo_emit. exact I.
Qed.

Lemma eo_reply_embed c c' res : preserves (nick_ok c) (reply c' (createNicknameEmbed nick_text res)).
Proof.
  apply eo_reply. unfold createNicknameEmbed.
  destruct (success res), (isModAction res), (nonempty_nick (newNickname res)); exact I.
Qed.

Lemma eo_changeNickname c tm nn mo r ma so :
  (forall audit, nick_ok c (SetNickname (tm_id tm) nn audit)) ->
  preserves (nick_ok c) (changeNickname tm nn mo r ma so).
Proof.
  intros Hs. unfold changeNickname. cbv zeta.
  apply eo_bind; [apply eo_emit, Hs|]. intros _.
  destruct (tm_set tm).
  - apply eo_ret.
  - apply eo_bind; [apply eo_emit; exact I | intros _; apply eo_ret].
  - apply eo_bind; [apply eo_emit; exact I | intros _; apply eo_throw].
Qed.

Lemma nick_guard_valid c :
  (nonempty_nick (nickname_opt c) && negb (isValidNickname (default [] (nickname_opt c))))
    = false ->
  nonempty_nick (nickname_opt c) = true -> isValidNickname (default [] (nickname_opt c)) = true.
Proof.
  intros H Hn. rewrite Hn in H. simpl in H. apply negb_false_iff in H. exact H.
Qed.

Lemma execute_body_preserves c : preserves (nick_ok c) (execute_body toLowerCase nick_text c).
Proof.
  unfold execute_body.
  destruct (guild c) as [g|] eqn:Hg; [|apply eo_sendErrorResponse].
  cbv zeta.
  destruct (nonempty_nick (nickname_opt c) && negb (isValidNickname (default [] (nickname_opt c))))
    eqn:Hv; [apply eo_sendErrorResponse|].
  pose proof (nick_guard_valid c Hv) as Hvalid.
  destruct (member c) as [m|] eqn:Hm; [|apply eo_sendErrorResponse].
  destruct (target_user c) as [u|] eqn:Hu.
  - destruct (negb (String.eqb (user_id u) (member_id m))) eqn:Hne.
    + destruct (negb (hasModeratorRole toLowerCase m) && negb (manage_nicknames m) &&
                negb (String.eqb (member_id m) (ownerId g))) eqn:Hauth;
        [apply eo_sendErrorResponse|].
      destruct (negb (default false (bot_manage_nicknames g))) eqn:Hbot;
        [apply eo_sendErrorResponse|].
      destruct (fetch c (user_id u)) as [tm|] eqn:Hf; [|apply eo_sendErrorResponse].
      destruct (negb (tm_manageable tm)) eqn:Hman; [apply eo_sendErrorResponse|].
      destruct (Z.leb (highest_position m) (tm_highest tm) &&
                negb (String.eqb (member_id m) (ownerId g))) eqn:Hh;
        [apply eo_sendErrorResponse|].
      apply eo_bind.
      * apply eo_changeNickname. intros audit.
        split; [reflexivity|]. split; [exact Hvalid|].
        exists g, m. split; [exact Hg|]. split; [exact Hm|].
        right. right. exists u, tm.
        split; [exact Hu|].
        split; [apply negb_true_iff, String.eqb_neq in Hne; exact Hne|].
        split; [exact Hf|]. split; [reflexivity|].
        split.
        { destruct (hasModeratorRole toLowerCase m); [left; reflexivity|].
          destruct (manage_nicknames m); [right; left; reflexivity|].
          right; right. simpl in Hauth.
          apply negb_false_iff, String.eqb_eq in Hauth. exact Hauth. }
        split; [destruct (bot_manage_nicknames g) as [[]|]; simpl in Hbot; congruence|].
        split; [apply negb_false_iff in Hman; exact Hman|].
        apply andb_false_iff in Hh. destruct Hh as [Hh | Hh].
        { left. apply Z.leb_gt. exact Hh. }
        { right. apply negb_false_iff, String.eqb_eq in Hh. exact Hh. }
      * intros res. destruct (success res).
        -- apply eo_bind; [apply eo_reply; exact I | intros _; apply eo_sendToLoggingChannel].
        -- apply eo_reply_embed.
    + destruct (fetch c (user_id u)) as [tm|] eqn:Hf; [|apply eo_sendErrorResponse].
      apply negb_false_iff, String.eqb_eq in Hne.
      assert (Hs : forall audit, nick_ok c (SetNickname (tm_id tm) (nickname_opt c) audit)).
      { intros audit. split; [reflexivity|]. split; [exact Hvalid|].
        exists g, m. split; [exact Hg|]. split; [exact Hm|].
        right. left. exists u, tm. repeat split; assumption. }
      apply eo_bind; [|intros res; apply eo_reply_embed].
      destruct (String.eqb (member_id m) (ownerId g) && String.eqb (tm_id tm) (member_id m));
        apply eo_changeNickname; exact Hs.
  - assert (Hs : forall audit,
               nick_ok c (SetNickname (tm_id (member_as_target m)) (nickname_opt c) audit)).
    { intros audit. split; [reflexivity|]. split; [exact Hvalid|].
      exists g, m. split; [exact Hg|]. split; [exact Hm|].
      left. split; [exact Hu | reflexivity]. }
    apply eo_bind; [|intros res; apply eo_reply_embed].
    destruct (String.eqb (member_id m) (ownerId g) &&
              String.eqb (tm_id (member_as_target m)) (member_id m));
      apply eo_changeNickname; exact Hs.
Qed.

Lemma execute_outputs_ok c : Forall (nick_ok c) (execute toLowerCase nick_text c).
Proof.
  unfold execute. apply eo_try_catch.
  - apply execute_body_preserves.
  - apply eo_bind; [apply eo_emit; exact I | intros _; apply eo_handleNicknameError].
  - constructor.
Qed.

Lemma execute_set_ok c x nn audit :
  In (SetNickname x nn audit) (execute toLowerCase nick_text c) ->
  nick_ok c (SetNickname x nn audit).
Proof.
  intros Hin. pose proof (execute_outputs_ok c) as H.
  rewrite List.Forall_forall in H. exact (H _ Hin).
Qed.

(** [/nickname] renames another member only after all of its checks:
    every [setNickname] call of [execute] renames the invoker itself
    (no [user] option), the member fetched for the invoker's own id, or,
    when the [user] option names someone else, the member fetched for
    that id, and then the invoker has the moderator role, Manage
    Nicknames or owns the guild, the bot has Manage Nicknames, the
    target is manageable, and the invoker outranks the target or owns
    the guild. *)
Theorem execute_renames_others_only_when_authorised (c : nick_call) (x : string)
  (nn : option utf16) (audit : option string) :
  In (SetNickname x nn audit) (execute toLowerCase nick_text c) ->
  exists g m, guild c = Some g /\ member c = Some m /\
    ((target_user c = None /\ x = member_id m) \/
     (exists u tm, target_user c = Some u /\ user_id u = member_id m /\
         fetch c (user_id u) = Some tm /\ x = tm_id tm) \/
     (exists u tm, target_user c = Some u /\ user_id u <> member_id m /\
         fetch c (user_id u) = Some tm /\ x = tm_id tm /\
         (hasModeratorRole toLowerCase m = true \/ manage_nicknames m = true \/
          member_id m = ownerId g) /\
         bot_manage_nicknames g = Some true /\ tm_manageable tm = true /\
         ((tm_highest tm < highest_position m)%Z \/ member_id m = ownerId g))).
Proof.
  intros Hin. destruct (execute_set_ok c x nn audit Hin) as (_ & _ & H). exact H.
Qed.

(** Every nickname [/nickname] sets is the [nickname] option as given:
    absent or empty (clearing the nickname), or a string accepted by
    [isValidNickname]. *)
Theorem execute_sets_only_given_valid_nickname (c : nick_call) (x : string)
  (nn : option utf16) (audit : option string) :
  In (SetNickname x nn audit) (execute toLowerCase nick_text c) ->
  nn = nickname_opt c /\
  (nn = None \/ nn = Some [] \/ exists s, nn = Some s /\ isValidNickname s = true).
Proof.
  intros Hin. destruct (execute_set_ok c x nn audit Hin) as (Heq & Hv & _).
  split; [exact Heq|].
  destruct nn as [[|u s]|]; [right; left; reflexivity| |left; reflexivity].
  right. right. exists (u :: s). split; [reflexivity|]. apply Hv. reflexivity.
Qed.

End NicknameFacts.

Definition mod_call : nick_call :=
  mk_nick_call (Some (mk_guild "owner1" [] (Some true)))
    (Some (mk_member "m1" "mod#0001" ["Ethan"] 10%Z false None SetResolved))
    (Some (mk_user "u2" "user#0002")) (Some [65%Z; 98%Z; 95%Z]) None "mod#0001"
    (fun id => Some (mk_target id "user#0002" None true 1%Z SetResolved)) true.

Lemma execute_renames_others_only_when_authorised_witness :
  In (SetNickname "u2" (Some [65%Z; 98%Z; 95%Z]) (Some "Changed by mod#0001: No reason provided"))
    (execute (fun s => s) (fun _ => "nick") mod_call) /\
  exists g m, guild mod_call = Some g /\ member mod_call = Some m /\
    ((target_user mod_call = None /\ "u2" = member_id m) \/
     (exists u tm, target_user mod_call = Some u /\ user_id u = member_id m /\
         fetch mod_call (user_id u) = Some tm /\ "u2" = tm_id tm) \/
     (exists u tm, target_user mod_call = Some u /\ user_id u <> member_id m /\
         fetch mod_call (user_id u) = Some tm /\ "u2" = tm_id tm /\
         (hasModeratorRole (fun s => s) m = true \/ manage_nicknames m = true \/
          member_id m = ownerId g) /\
         bot_manage_nicknames g = Some true /\ tm_manageable tm = true /\
         ((tm_highest tm < highest_position m)%Z \/ member_id m = ownerId g))).
Proof.
  assert (Hin : In (SetNickname "u2" (Some [65%Z; 98%Z; 95%Z])
                      (Some "Changed by mod#0001: No reason provided"))
                  (execute (fun s => s) (fun _ => "nick") mod_call))
    by (vm_compute; left; reflexivity).
  split; [exact Hin|].
  exact (execute_renames_others_only_when_authorised (fun s => s) (fun _ => "nick")
           mod_call _ _ _ Hin).
Defined.

Lemma execute_sets_only_given_valid_nickname_witness :
  In (SetNickname "u2" (Some [65%Z; 98%Z; 95%Z]) (Some "Changed by mod#0001: No reason provided"))
    (execute (fun s => s) (fun _ => "nick") mod_call) /\
  Some [65%Z; 98%Z; 95%Z] = nickname_opt mod_call /\
  (Some [65%Z; 98%Z; 95%Z] = None \/ Some [65%Z; 98%Z; 95%Z] = Some [] \/
   exists s, Some [65%Z; 98%Z; 95%Z] = Some s /\ isValidNickname s = true).
Proof.
  assert (Hin : In (SetNickname "u2" (Some [65%Z; 98%Z; 95%Z])
                      (Some "Changed by mod#0001: No reason provided"))
                  (execute (fun s => s) (fun _ => "nick") mod_call))
    by (vm_compute; left; reflexivity).
  split; [exact Hin|].
  exact (execute_sets_only_given_valid_nickname (fun s => s) (fun _ => "nick")
           mod_call _ _ _ Hin).
Defined.

End NicknameProofs.

(* ================================================================== *)
(** ** Proofs about event and interaction loading                      *)
(* ================================================================== *)

Module EventProofs.
Import Loader EventLoader.

(** The listener a file's module adds: one, of the kind its [once] asks
    for, when it exports both [name] and [execute]. *)
Definition registered_listener (f : event_file) : list (listener_kind * string) :=
  match ev_import f with
  | Some ev =>
      match ev_name ev with
      | Some name =>
          if ev_has_execute ev then [(if ev_once ev then OnceListener else OnListener, name)]
          else []
      | None => []
      end
  | None => []
  end.

Lemma load_event_file_ok (f : event_file) (s : ev_state) :
  ev_import f <> None ->
  exists l, load_event_file f s =
    (Ok tt, mk_ev_state (listeners s ++ registered_listener f) (ev_logs s ++ l)).
Proof.
  intros Hi. unfold load_event_file, ebind, import_event, registered_listener.
  destruct (ev_import f) as [ev|]; [|congruence].
  destruct (ev_name ev) as [name|]; [destruct (ev_has_execute ev)|].
  - eexists. reflexivity.
  - rewrite app_nil_r. eexists. reflexivity.
  - rewrite app_nil_r. eexists. reflexivity.
Qed.

Lemma efor_each_all_ok (files : list event_file) (s : ev_state) :
  Forall (fun f => ev_import f <> None) files ->
  exists l, efor_each files load_event_file s =
    (Ok tt, mk_ev_state (listeners s ++ flat_map registered_listener files) (ev_logs s ++ l)).
Proof.
  intros H. revert s. induction H as [|f files Hf _ IH]; intros s.
  - exists []. destruct s. cbn. rewrite !app_nil_r. reflexivity.
  - cbn [efor_each]. unfold ebind.
    destruct (load_event_file_ok f s Hf) as [l1 E1]. rewrite E1.
    destruct (IH (mk_ev_state (listeners s ++ registered_listener f) (ev_logs s ++ l1)))
      as [l2 E2].
    rewrite E2. exists (l1 ++ l2). cbn. rewrite !app_assoc. reflexivity.
Qed.


(** When every event file imports, [loadEvents] registers one listener
    per module that exports [name] and [execute], in file order, with
    [client.once] exactly for the truthy [once]; it completes normally,
    and its last log line counts every file, registered or not. *)
Theorem loadEvents_registers_complete_modules (files : list event_file) (s : ev_state) :
  Forall (fun f => ev_import f <> None) files ->
  fst (loadEvents (Some files) s) = Ok tt /\
  listeners (snd (loadEvents (Some files) s)) =
    listeners s ++ flat_map registered_listener files /\
  exists l, ev_logs (snd (loadEvents (Some files) s)) =
    ev_logs s ++ l ++ [LogLine (String.append "Total Events Loaded: " (pretty (length files)))].
Proof.
  intros H. destruct (efor_each_all_ok files s H) as [l E].
  unfold loadEvents, etry_catch, ebind. rewrite E. cbn.
  split; [reflexivity|]. split; [reflexivity|].
  exists l. rewrite app_assoc. reflexivity.
Qed.


Definition ready_file : event_file :=
  mk_event_file "events/ready.ts" (Some (mk_event_module (Some "ready") true true)).

Lemma loadEvents_registers_complete_modules_witness :
  Forall (fun f => ev_import f <> None) [ready_file] /\
  fst (loadEvents (Some [ready_file]) (mk_ev_state [] [])) = Ok tt /\
  listeners (snd (loadEvents (Some [ready_file]) (mk_ev_state [] []))) =
    [] ++ flat_map registered_listener [ready_file] /\
  exists l, ev_logs (snd (loadEvents (Some [ready_file]) (mk_ev_state [] []))) =
    [] ++ l ++ [LogLine (String.append "Total Events Loaded: " (pretty (length [ready_file])))].
Proof.
  assert (H : Forall (fun f => ev_import f <> None) [ready_file]).
  { constructor; [discriminate | constructor]. }
  split; [exact H|].
  exact (loadEvents_registers_complete_modules [ready_file] (mk_ev_state [] []) H).
Defined.


Lemma load_component_file_frame (c : candidate) (s : registries) :
  commands (snd (load_component_file Buttons c s)) = commands s /\
  modals (snd (load_component_file Buttons c s)) = modals s /\
  selectMenus (snd (load_component_file Buttons c s)) = selectMenus s.
Proof.
  unfold load_component_file, import_default, both_in, in_op, bind, ret, raise.
  destruct (imported c) as [[|d ci e]|]; cbn; [auto| |auto].
  destruct d, ci, e; cbn; auto.
Qed.

Lemma for_each_buttons_frame (files : list candidate) (s : registries) :
  commands (snd (for_each files (load_component_file Buttons) s)) = commands s /\
  modals (snd (for_each files (load_component_file Buttons) s)) = modals s /\
  selectMenus (snd (for_each files (load_component_file Buttons) s)) = selectMenus s.
Proof.
  revert s. induction files as [|c files IH]; intros s; [auto|].
  cbn [for_each]. unfold bind.
  pose proof (load_component_file_frame c s) as (H1 & H2 & H3).
  destruct (load_component_file Buttons c s) as [[[]|e] s1]; cbn in *.
  - destruct (IH s1) as (H1' & H2' & H3'). rewrite H1', H2', H3'. auto.
  - auto.
Qed.

(** An error thrown while loading buttons (a failed import, or a default
    export that is not an object) abandons [loadInteractions]: modals and
    select menus are never loaded, the command registry is untouched, the
    error is logged as "Error loading interactions:" and no total is
    printed. *)
Theorem loadInteractions_button_error_skips_rest (bs ms ss : option (list candidate))
  (s : registries) (e : js_error) (s1 : registries) :
  loadButtons bs s = (Throw e, s1) ->
  loadInteractions bs ms ss s =
    (Ok tt, mk_registries (commands s) (buttons s1) (modals s) (selectMenus s)
              (logs s1 ++ [ErrorLine "Error loading interactions:" e])).
Proof.
  intros H. unfold loadInteractions, try_catch, bind at 1. rewrite H.
  unfold loadButtons, load_components in H.
  destruct bs as [files|]; [|discriminate].
  pose proof (for_each_buttons_frame files s) as (H1 & H2 & H3).
  rewrite H in H1, H2, H3. cbn in H1, H2, H3.
  unfold console. rewrite H1, H2, H3. reflexivity.
Qed.

Definition bad_button : candidate := mk_candidate "interactions/buttons/bad.ts" None.

Lemma loadInteractions_button_error_skips_rest_witness :
  loadButtons (Some [bad_button]) empty_registries =
    (Throw (ImportFailed "interactions/buttons/bad.ts"), empty_registries) /\
  loadInteractions (Some [bad_button]) (Some []) (Some []) empty_registries =
    (Ok tt, mk_registries (commands empty_registries) (buttons empty_registries)
              (modals empty_registries) (selectMenus empty_registries)
              (logs empty_registries ++
               [ErrorLine "Error loading interactions:"
                  (ImportFailed "interactions/buttons/bad.ts")])).
Proof.
  assert (H : loadButtons (Some [bad_button]) empty_registries =
                (Throw (ImportFailed "interactions/buttons/bad.ts"), empty_registries))
    by reflexivity.
  split; [exact H|].
  exact (loadInteractions_button_error_skips_rest _ (Some []) (Some []) _ _ _ H).
Defined.

End EventProofs.

(* ================================================================== *)
(** ** Proofs about the older DatabaseManager                          *)
(* ================================================================== *)

Module LegacyProofs.
Import LegacyDatabase.

Ltac run_ldb Ho :=
  unfold setUserNickname, addWarning, createOrUpdateGuildSettings, getUserNickname,
    getGuildSettings, getWarningCount, removeUserNickname, getStats, close, lbind, prepare;
  cbn -[lookup insert delete];
  repeat (rewrite Ho; cbn -[lookup insert delete]).

(** [setUserNickname] then [getUserNickname]: on an open connection the
    pair [(userId, guildId)] reads back the nickname, its setter and the
    time of the call; every other pair reads as before. *)
Theorem setUserNickname_then_getUserNickname (now : Z) (uid gid nick setBy' : string)
  (s : ldb) (u' g' : string) :
  ldb_open s = true ->
  fst (setUserNickname now uid gid nick setBy' s) = Ok tt /\
  fst (getUserNickname u' g' (snd (setUserNickname now uid gid nick setBy' s))) =
    (if decide ((uid, gid) = (u', g'))
     then Ok (Some (mk_user_nickname uid gid nick setBy' now))
     else fst (getUserNickname u' g' s)).
Proof.
  intros Ho. run_ldb Ho.
  split; [reflexivity|].
  rewrite lookup_insert. destruct (decide ((uid, gid) = (u', g'))) as [E|E].
  - injection E as <- <-. reflexivity.
  - reflexivity.
Qed.

(** [removeUserNickname] on an open connection answers whether the pair
    had a stored nickname; afterwards that pair reads as [null], and
    every other pair as before. *)
Theorem removeUserNickname_reports_and_forgets (uid gid : string) (s : ldb) (u' g' : string) :
  ldb_open s = true ->
  fst (removeUserNickname uid gid s) =
    Ok (match fst (getUserNickname uid gid s) with Ok (Some _) => true | _ => false end) /\
  fst (getUserNickname u' g' (snd (removeUserNickname uid gid s))) =
    (if decide ((uid, gid) = (u', g')) then Ok None else fst (getUserNickname u' g' s)).
Proof.
  intros Ho. run_ldb Ho.
  split; [destruct (user_nicknames s !! (uid, gid)); reflexivity|].
  rewrite lookup_delete. destruct (decide ((uid, gid) = (u', g'))); reflexivity.
Qed.

(** Recording a warning or a nickname for a guild keeps its settings:
    prefix, log channel, mute role, auto-moderation flag and creation
    time stay as they were and only [updatedAt] moves to the time of the
    call. A guild without settings gets a row with no prefix (not the
    column default '!'), no log channel, no mute role and
    auto-moderation off. *)
Theorem recording_keeps_guild_settings (now : Z) (uid gid mid reason nick setBy' : string)
  (s : ldb) :
  ldb_open s = true ->
  let expected :=
    Ok (Some (match fst (getGuildSettings gid s) with
              | Ok (Some gs) => mk_settings gid (s_prefix gs) (modLogChannel gs) (muteRole gs)
                                  (autoModEnabled gs) (createdAt gs) now
              | _ => mk_settings gid None None None false now now
              end)) in
  fst (getGuildSettings gid (snd (addWarning now uid gid mid reason s))) = expected /\
  fst (getGuildSettings gid (snd (setUserNickname now uid gid nick setBy' s))) = expected.
Proof.
  intros Ho expected. subst expected. run_ldb Ho.
  rewrite !lookup_insert, decide_True by reflexivity.
  destruct (guild_settings s !! gid) as [r|]; cbn -[lookup insert delete]; split; reflexivity.
Qed.

(** [createOrUpdateGuildSettings] on an existing guild never clears a
    stored text setting: an absent or empty prefix, log channel or mute
    role keeps the old value exactly, and a non-empty one replaces it. It
    keeps the auto-moderation flag unless the patch gives one, keeps the
    creation time and sets [updatedAt] to the time of the call. *)
Theorem createOrUpdateGuildSettings_never_clears (now : Z) (gid : string) (p : settings_patch)
  (s : ldb) (gs : GuildSettings) :
  ldb_open s = true -> fst (getGuildSettings gid s) = Ok (Some gs) ->
  exists gs',
    fst (getGuildSettings gid (snd (createOrUpdateGuildSettings now gid p s))) = Ok (Some gs') /\
    s_prefix gs' = match p_prefix p with
                   | None | Some EmptyString => s_prefix gs
                   | Some v => Some v
                   end /\
    modLogChannel gs' = match p_modLogChannel p with
                        | None | Some EmptyString => modLogChannel gs
                        | Some v => Some v
                        end /\
    muteRole gs' = match p_muteRole p with
                   | None | Some EmptyString => muteRole gs
                   | Some v => Some v
                   end /\
    autoModEnabled gs' = match p_autoModEnabled p with Some b => b | None => autoModEnabled gs end /\
    createdAt gs' = createdAt gs /\ updatedAt gs' = now.
Proof.
  intros Ho Hg. revert Hg. run_ldb Ho.
  rewrite lookup_insert, decide_True by reflexivity.
  destruct (guild_settings s !! gid) as [r|]; [|discriminate].
  intros [= <-]. cbn. eexists. split; [reflexivity|]. cbn.
  split; [destruct (p_prefix p) as [[|c v]|]; reflexivity|].
  split; [destruct (p_modLogChannel p) as [[|c v]|]; reflexivity|].
  split; [destruct (p_muteRole p) as [[|c v]|]; reflexivity|].
  split; [destruct (p_autoModEnabled p) as [[]|]; reflexivity|].
  split; reflexivity.
Qed.

Lemma max_warning_id_ge (ws : list warning_row) (w : warning_row) :
  In w ws -> (w_id w <= max_warning_id ws)%Z.
Proof.
  induction ws as [|w' ws IH]; [intros []|].
  intros [<- | Hin]; cbn; [lia|]. specialize (IH Hin). lia.
Qed.

(** [addWarning] on an open connection returns an id above the
    AUTOINCREMENT sequence and above every stored warning id (so ids are
    never reused), records it as the new sequence value, and raises the
    warning count of that user in that guild by one, leaving every other
    count unchanged. *)
Theorem addWarning_fresh_id_and_count (now : Z) (uid gid mid reason : string) (s : ldb) :
  ldb_open s = true ->
  exists id,
    fst (addWarning now uid gid mid reason s) = Ok id /\
    (warnings_seq s < id)%Z /\
    (forall w, In w (user_warnings s) -> (w_id w < id)%Z) /\
    warnings_seq (snd (addWarning now uid gid mid reason s)) = id /\
    forall u' g', exists k,
      fst (getWarningCount u' g' s) = Ok k /\
      fst (getWarningCount u' g' (snd (addWarning now uid gid mid reason s))) =
        Ok (if String.eqb uid u' && String.eqb gid g' then S k else k).
Proof.
  intros Ho. run_ldb Ho.
  eexists. split; [reflexivity|]. split; [lia|].
  split; [intros w Hw; pose proof (max_warning_id_ge _ _ Hw); lia|].
  split; [reflexivity|].
  intros u' g'.
  eexists. split; [reflexivity|].
  rewrite List.filter_app, List.length_app. cbn.
  rewrite (String.eqb_sym uid u'), (String.eqb_sym gid g').
  destruct (String.eqb u' uid && String.eqb g' gid); cbn; f_equal; lia.
Qed.

(** After [close()], every method of the manager throws (better-sqlite3
    refuses statements on a closed connection) and changes nothing. *)
Theorem operations_after_close_throw (s : ldb) (now : Z) (uid gid mid reason nick setBy' : string)
  (p : settings_patch) :
  let s' := snd (close s) in
  getGuildSettings gid s' = (Throw DatabaseNotOpen, s') /\
  createOrUpdateGuildSettings now gid p s' = (Throw DatabaseNotOpen, s') /\
  addWarning now uid gid mid reason s' = (Throw DatabaseNotOpen, s') /\
  getWarningCount uid gid s' = (Throw DatabaseNotOpen, s') /\
  setUserNickname now uid gid nick setBy' s' = (Throw DatabaseNotOpen, s') /\
  getUserNickname uid gid s' = (Throw DatabaseNotOpen, s') /\
  removeUserNickname uid gid s' = (Throw DatabaseNotOpen, s') /\
  getStats s' = (Throw DatabaseNotOpen, s').
Proof. intros s'. subst s'. repeat split. Qed.

Definition open_ldb : ldb := mk_ldb true ∅ [] 0%Z ∅.

Definition guild_g1 : guild_row := mk_guild_row (Some "?") None (Some "muted") 1%Z 3%Z 4%Z.

Definition ldb_g1 : ldb :=
  mk_ldb true {[ "g1" := guild_g1 ]}
    [mk_warning_row 7%Z "u1" "g1" "m1" "spam" 3%Z] 9%Z ∅.

Lemma setUserNickname_then_getUserNickname_witness :
  ldb_open open_ldb = true /\
  fst (setUserNickname 5%Z "u1" "g1" "Nick" "m1" open_ldb) = Ok tt /\
  fst (getUserNickname "u1" "g1" (snd (setUserNickname 5%Z "u1" "g1" "Nick" "m1" open_ldb))) =
    (if decide (("u1", "g1") = ("u1", "g1"))
     then Ok (Some (mk_user_nickname "u1" "g1" "Nick" "m1" 5%Z))
     else fst (getUserNickname "u1" "g1" open_ldb)).
Proof.
  assert (Ho : ldb_open open_ldb = true) by reflexivity.
  split; [exact Ho|].
  exact (setUserNickname_then_getUserNickname 5%Z "u1" "g1" "Nick" "m1" open_ldb "u1" "g1" Ho).
Defined.

Definition ldb_nick : ldb :=
  mk_ldb true {[ "g1" := guild_g1 ]} [] 0%Z
    {[ ("u1", "g1") := mk_nickname_row "Nick" "m1" 2%Z;
       ("u2", "g1") := mk_nickname_row "Other" "m1" 2%Z ]}.

Lemma removeUserNickname_reports_and_forgets_witness :
  ldb_open ldb_nick = true /\
  fst (getUserNickname "u1" "g1" ldb_nick) =
    Ok (Some (mk_user_nickname "u1" "g1" "Nick" "m1" 2%Z)) /\
  fst (removeUserNickname "u1" "g1" ldb_nick) = Ok true /\
  fst (removeUserNickname "u1" "g1" ldb_nick) =
    Ok (match fst (getUserNickname "u1" "g1" ldb_nick) with Ok (Some _) => true | _ => false end) /\
  fst (getUserNickname "u1" "g1" (snd (removeUserNickname "u1" "g1" ldb_nick))) = Ok None /\
  fst (getUserNickname "u2" "g1" (snd (removeUserNickname "u1" "g1" ldb_nick))) =
    fst (getUserNickname "u2" "g1" ldb_nick).
Proof.
  assert (Ho : ldb_open ldb_nick = true) by reflexivity.
  destruct (removeUserNickname_reports_and_forgets "u1" "g1" ldb_nick "u1" "g1" Ho)
    as [Hr Hself].
  destruct (removeUserNickname_reports_and_forgets "u1" "g1" ldb_nick "u2" "g1" Ho)
    as [_ Hother].
  split; [exact Ho|]. split; [vm_compute; reflexivity|].
  split; [vm_compute; reflexivity|]. split; [exact Hr|].
  split; [rewrite Hself; reflexivity|].
  rewrite Hother. reflexivity.
Defined.

Lemma recording_keeps_guild_settings_witness :
  ldb_open ldb_g1 = true /\
  let expected :=
    Ok (Some (match fst (getGuildSettings "g1" ldb_g1) with
              | Ok (Some gs) => mk_settings "g1" (s_prefix gs) (modLogChannel gs) (muteRole gs)
                                  (autoModEnabled gs) (createdAt gs) 5%Z
              | _ => mk_settings "g1" None None None false 5%Z 5%Z
              end)) in
  fst (getGuildSettings "g1" (snd (addWarning 5%Z "u1" "g1" "m1" "spam" ldb_g1))) = expected /\
  fst (getGuildSettings "g1" (snd (setUserNickname 5%Z "u1" "g1" "Nick" "m1" ldb_g1)))
    = expected.
Proof.
  assert (Ho : ldb_open ldb_g1 = true) by reflexivity.
  split; [exact Ho|].
  exact (recording_keeps_guild_settings 5%Z "u1" "g1" "m1" "spam" "Nick" "m1" ldb_g1 Ho).
Defined.

Lemma createOrUpdateGuildSettings_never_clears_witness :
  ldb_open ldb_g1 = true /\
  fst (getGuildSettings "g1" ldb_g1) =
    Ok (Some (mk_settings "g1" (Some "?") None (Some "muted") true 3%Z 4%Z)) /\
  exists gs',
    fst (getGuildSettings "g1"
           (snd (createOrUpdateGuildSettings 5%Z "g1" (mk_patch (Some "") (Some "logs") None None)
                   ldb_g1))) = Ok (Some gs') /\
    s_prefix gs' = Some "?" /\ modLogChannel gs' = Some "logs" /\
    muteRole gs' = Some "muted" /\
    autoModEnabled gs' = true /\ createdAt gs' = 3%Z /\ updatedAt gs' = 5%Z.
Proof.
  assert (Ho : ldb_open ldb_g1 = true) by reflexivity.
  assert (Hg : fst (getGuildSettings "g1" ldb_g1) =
                 Ok (Some (mk_settings "g1" (Some "?") None (Some "muted") true 3%Z 4%Z)))
    by (vm_compute; reflexivity).
  split; [exact Ho|]. split; [exact Hg|].
  exact (createOrUpdateGuildSettings_never_clears 5%Z "g1"
           (mk_patch (Some "") (Some "logs") None None) ldb_g1 _ Ho Hg).
Defined.

Lemma addWarning_fresh_id_and_count_witness :
  ldb_open ldb_g1 = true /\
  exists id,
    fst (addWarning 5%Z "u1" "g1" "m1" "spam" ldb_g1) = Ok id /\
    (warnings_seq ldb_g1 < id)%Z /\
    (forall w, In w (user_warnings ldb_g1) -> (w_id w < id)%Z) /\
    warnings_seq (snd (addWarning 5%Z "u1" "g1" "m1" "spam" ldb_g1)) = id /\
    forall u' g', exists k,
      fst (getWarningCount u' g' ldb_g1) = Ok k /\
      fst (getWarningCount u' g' (snd (addWarning 5%Z "u1" "g1" "m1" "spam" ldb_g1))) =
        Ok (if String.eqb "u1" u' && String.eqb "g1" g' then S k else k).
Proof.
  assert (Ho : ldb_open ldb_g1 = true) by reflexivity.
  split; [exact Ho|].
  exact (addWarning_fresh_id_and_count 5%Z "u1" "g1" "m1" "spam" ldb_g1 Ho).
Defined.

End LegacyProofs.
